(** * Tile rearrangement (qualifier.py): a shallow embedding and its properties

    The development follows [src/qualifier/qualifier.py]:
    - [is_unique], [valid_input]: the pure validators, over Python integers
      ([Z]) with Python's floored [//] and [%], which raise on a zero divisor;
    - [get_tile], [rearrange_tiles]: the image code, over a store of image
      objects and a file system, in a state-and-exception monad. *)

From stdpp Require Import gmap strings list list_numbers sorting fin_maps.

Local Open Scope Z_scope.

(** ** Python exceptions and results *)

Inductive exn : Type :=
  | ValueError (msg : string)
  | ZeroDivisionError
  | IndexError
  | FileNotFoundError.

Inductive result (A : Type) : Type :=
  | Ok (a : A)
  | Raise (e : exn).
Arguments Ok {A} a.
Arguments Raise {A} e.

Definition rbind {A B} (m : result A) (k : A → result B) : result B :=
  match m with
  | Ok a => k a
  | Raise e => Raise e
  end.

Notation "x <~ m ;; k" := (rbind m (fun x => k))
  (at level 100, m at next level, right associativity, only parsing).

(** ** Python integer arithmetic and lists *)

(** [a // b]: floored division; [Z.div] rounds towards minus infinity as
    Python does. A zero divisor raises. *)
Definition py_floordiv (a b : Z) : result Z :=
  if b =? 0 then Raise ZeroDivisionError else Ok (a / b).

(** [a % b]: the remainder of the floored division (sign of the divisor). *)
Definition py_mod (a b : Z) : result Z :=
  if b =? 0 then Raise ZeroDivisionError else Ok (a mod b).

(** [len(l)] *)
Definition len {A} (l : list A) : Z := Z.of_nat (length l).

(** [range(n)]: empty when [n <= 0]. *)
Definition range (n : Z) : list Z := seqZ 0 n.

(** [enumerate(l)] *)
Definition enumerate {A} (l : list A) : list (Z * A) :=
  imap (λ i x, (Z.of_nat i, x)) l.

(** [all(...)] over a list of already evaluated booleans. *)
Definition all (l : list bool) : bool := forallb id l.

(** [sorted(l)] on integers: a merge sort by [<=]. *)
Definition sorted (l : list Z) : list Z := merge_sort Z.le l.

(** [l[i]] with Python's negative indices and [IndexError]. *)
Definition py_index {A} (l : list A) (i : Z) : result A :=
  let i' := if i <? 0 then len l + i else i in
  if i' <? 0 then Raise IndexError
  else match l !! Z.to_nat i' with
       | Some x => Ok x
       | None => Raise IndexError
       end.

(** ** The validators *)

(** qualifier.py, [is_unique] (lines 4-11). *)
Definition is_unique (collection : list Z) : bool :=
  let collection := sorted collection in
  all ((λ '(i, el), i =? el) <$> enumerate collection).

(** qualifier.py, [valid_input] (lines 27-47). The two floor divisions are
    evaluated first; the conjunction short-circuits from left to right. *)
Definition valid_input (image_size tile_size : Z * Z) (ordering : list Z)
  : result bool :=
  let '(image_width, image_height) := image_size in
  let '(tile_width, tile_height) := tile_size in
  tile_rows <~ py_floordiv image_height tile_height ;;
  tile_cols <~ py_floordiv image_width tile_width ;;
  m1 <~ py_mod image_width tile_width ;;
  if negb (m1 =? 0) then Ok false else
  m2 <~ py_mod image_height tile_height ;;
  if negb (m2 =? 0) then Ok false else
  if negb (len ordering =? tile_rows * tile_cols) then Ok false else
  Ok (is_unique ordering).

(** ** Images, the object store and the file system

    Pillow is an external collaborator; the operations the program calls
    ([Image.open], [Image.new], [crop], [paste], [save], closing by [with])
    are modelled on a store of image objects addressed by reference. *)

Definition pixel : Type := Z.

(** An image buffer: colour mode, size, pixel data. Sizes cannot be
    negative. Only the pixels inside the bounds are observable. *)
Record img : Type := Img {
  mode : string;
  width : N;
  height : N;
  px : Z → Z → pixel
}.

(** [im.size] *)
Definition size (im : img) : Z * Z := (Z.of_N (width im), Z.of_N (height im)).

Definition in_bounds (im : img) (x y : Z) : bool :=
  (0 <=? x) && (x <? Z.of_N (width im)) && (0 <=? y) && (y <? Z.of_N (height im)).

(** Reading a pixel; outside the buffer a crop sees the fill value 0. *)
Definition getpixel (im : img) (x y : Z) : pixel :=
  if in_bounds im x y then px im x y else 0.

(** Two buffers show the same picture. *)
Definition pixel_identical (a b : img) : Prop :=
  mode a = mode b ∧ size a = size b ∧
  ∀ x y, 0 ≤ x < Z.of_N (width a) → 0 ≤ y < Z.of_N (height a) →
         px a x y = px b x y.

(** Modelled from the spec: the codec collaborator's [new-buffer(mode, size)],
    a buffer of the given mode and size filled with 0. *)
Definition new_img (m : string) (sz : Z * Z) : img :=
  {| mode := m; width := Z.to_N sz.1; height := Z.to_N sz.2; px := λ _ _, 0 |}.

(** Modelled from the spec: the codec collaborator's [buffer.crop(rect)], the
    half-open region [x0, x1) x [y0, y1) of the buffer as a new
    buffer of the same mode; an inverted rectangle is an empty region. *)
Definition crop_img (im : img) (box : Z * Z * Z * Z) : img :=
  let '(x0, y0, x1, y1) := box in
  {| mode := mode im;
     width := Z.to_N (x1 - x0);
     height := Z.to_N (y1 - y0);
     px := λ x y, getpixel im (x0 + x) (y0 + y) |}.

(** Modelled from the spec: the codec collaborator's
    [buffer.paste(tile, topLeftPoint)]: the tile's pixels replace those of the
    rectangle of the tile's size whose top left corner is the point. *)
Definition paste_img (dst tile : img) (pos : Z * Z) : img :=
  let '(x0, y0) := pos in
  {| mode := mode dst;
     width := width dst;
     height := height dst;
     px := λ x y,
       if (x0 <=? x) && (x <? x0 + Z.of_N (width tile)) &&
          (y0 <=? y) && (y <? y0 + Z.of_N (height tile))
       then px tile (x - x0) (y - y0)
       else px dst x y |}.

(** References to image objects. *)
Definition ref : Type := nat.

(** The state a call runs in: the files on disk (decoded) and the live image
    objects. A released object is no longer in [heap]. *)
Record world : Type := World {
  fs : gmap string img;
  heap : gmap nat img
}.

Definition set_heap (h : gmap nat img) (w : world) : world :=
  {| fs := fs w; heap := h |}.
Definition set_fs (f : gmap string img) (w : world) : world :=
  {| fs := f; heap := heap w |}.

(** ** The monad of the image code: state and exceptions *)

Definition M (A : Type) : Type := world → result A * world.

Definition ret {A} (a : A) : M A := λ w, (Ok a, w).
Definition raise {A} (e : exn) : M A := λ w, (Raise e, w).
Definition lift {A} (r : result A) : M A := λ w, (r, w).
Definition bind {A B} (m : M A) (k : A → M B) : M B :=
  λ w, match m w with
       | (Ok a, w') => k a w'
       | (Raise e, w') => (Raise e, w')
       end.

Notation "x <- m ;; k" := (bind m (fun x => k))
  (at level 100, m at next level, right associativity, only parsing).

(** [for x in l: s = body(x, s)], the loop variable state threaded. *)
Fixpoint for_ {A S} (l : list A) (body : A → S → M S) (s : S) : M S :=
  match l with
  | [] => ret s
  | x :: l' => s' <- body x s ;; for_ l' body s'
  end.

Definition closed_msg : string := "Operation on closed image".

(** A reference no live object has. *)
Definition fresh_ref (h : gmap nat img) : ref := fresh (dom h : gset nat).

(** A new object at a fresh reference. *)
Definition alloc (im : img) : M ref :=
  λ w, let r := fresh_ref (heap w) in
       (Ok r, set_heap (<[r := im]> (heap w)) w).

Definition load (r : ref) : M img :=
  λ w, match heap w !! r with
       | Some im => (Ok im, w)
       | None => (Raise (ValueError closed_msg), w)
       end.

(** Modelled from the spec: the codec collaborator's [open-for-read(path)]. *)
Definition Image_open (path : string) : M ref :=
  λ w, match fs w !! path with
       | Some im => alloc im w
       | None => (Raise FileNotFoundError, w)
       end.

(** Modelled from the spec: [new-buffer(mode, size)] as an object. *)
Definition Image_new (m : string) (sz : Z * Z) : M ref :=
  if (sz.1 <? 0) || (sz.2 <? 0)
  then raise (ValueError "Width and height must be >= 0")
  else alloc (new_img m sz).

Definition Image_mode (r : ref) : M string := im <- load r ;; ret (mode im).
Definition Image_size (r : ref) : M (Z * Z) := im <- load r ;; ret (size im).

(** Modelled from the spec: [buffer.crop(rect)] returns a new object. *)
Definition Image_crop (r : ref) (box : Z * Z * Z * Z) : M ref :=
  im <- load r ;; alloc (crop_img im box).

(** Modelled from the spec: [buffer.paste(tile, point)] mutates the buffer in
    place. *)
Definition Image_paste (r tile : ref) (pos : Z * Z) : M unit :=
  dst <- load r ;;
  t <- load tile ;;
  λ w, (Ok (), set_heap (<[r := paste_img dst t pos]> (heap w)) w).

(** Modelled from the spec: [buffer.save(path)] persists the buffer. *)
Definition Image_save (r : ref) (path : string) : M unit :=
  im <- load r ;;
  λ w, (Ok (), set_fs (<[path := im]> (fs w)) w).

(** Leaving a [with] block releases the object. *)
Definition Image_close (r : ref) (w : world) : world :=
  set_heap (delete r (heap w)) w.

(** [with acquire as x: body]: the object is released on every exit. *)
Definition with_ {A} (acquire : M ref) (body : ref → M A) : M A :=
  λ w, match acquire w with
       | (Ok r, w1) => let '(res, w2) := body r w1 in (res, Image_close r w2)
       | (Raise e, w1) => (Raise e, w1)
       end.

(** ** The image code *)

(** qualifier.py, [get_tile] (lines 14-24). *)
Definition get_tile (image : ref) (tile_size : Z * Z) (i j : Z) : M ref :=
  let '(tile_width, tile_height) := tile_size in
  let '(x, y) := (tile_width * i, tile_height * j) in
  Image_crop image (x, y, x + tile_width, y + tile_height).

(** The buffer [get_tile] returns for column [i], row [j]. *)
Definition tile_img (im : img) (tile_size : Z * Z) (i j : Z) : img :=
  crop_img im (tile_size.1 * i, tile_size.2 * j,
               tile_size.1 * i + tile_size.1, tile_size.2 * j + tile_size.2).

(** The list the loop of lines 88-89 builds. *)
Definition permuted (tiles : list ref) (ordering : list Z) : list ref :=
  (λ k, tiles !!! Z.to_nat (ordering !!! Z.to_nat k)) <$> range (len tiles).

Definition invalid_msg : string :=
  "The tile size or ordering are not valid for the given image".

(** qualifier.py, lines 83-86: the source tiles, row by row. *)
Definition tiles_loop (image : ref) (tile_size : Z * Z)
    (tile_rows tile_cols : Z) : M (list ref) :=
  for_ (range tile_rows) (λ i tiles,
    for_ (range tile_cols) (λ j tiles,
      tile <- get_tile image tile_size j i ;;
      ret (tiles ++ [tile])) tiles) [].

(** qualifier.py, lines 88-89: the tiles in their new order. *)
Definition out_tiles_loop (tiles : list ref) (ordering : list Z)
  : M (list ref) :=
  for_ (range (len tiles)) (λ i out_tiles,
    o <- lift (py_index ordering i) ;;
    t <- lift (py_index tiles o) ;;
    ret (out_tiles ++ [t])) [].

(** qualifier.py, lines 91-95: the tiles pasted, row by row. *)
Definition paste_loop (out_image : ref) (out_tiles : list ref)
    (tile_size : Z * Z) (tile_rows tile_cols : Z) : M unit :=
  let '(tile_width, tile_height) := tile_size in
  for_ (range tile_rows) (λ i u,
    for_ (range tile_cols) (λ j _,
      t <- lift (py_index out_tiles (i * tile_cols + j)) ;;
      Image_paste out_image t (tile_width * j, tile_height * i)) u) ().

(** The grid positions in the order of the two nested loops. *)
Definition grid (tile_rows tile_cols : Z) : list (Z * Z) :=
  i ← range tile_rows; pair i <$> range tile_cols.

(** qualifier.py, [rearrange_tiles], the body of the [with] block
    (lines 69-97). *)
Definition rearrange_body (image out_image : ref) (tile_size : Z * Z)
    (ordering : list Z) (out_path : string) : M unit :=
  image_size <- Image_size image ;;
  let '(image_width, image_height) := image_size in
  let '(tile_width, tile_height) := tile_size in
  tile_rows <- lift (py_floordiv image_height tile_height) ;;
  tile_cols <- lift (py_floordiv image_width tile_width) ;;
  valid <- lift (valid_input image_size tile_size ordering) ;;
  if negb valid then raise (ValueError invalid_msg) else
  tiles <- tiles_loop image tile_size tile_rows tile_cols ;;
  out_tiles <- out_tiles_loop tiles ordering ;;
  _ <- paste_loop out_image out_tiles tile_size tile_rows tile_cols ;;
  Image_save out_image out_path.

(** qualifier.py, [rearrange_tiles] (lines 50-97). *)
Definition rearrange_tiles (image_path : string) (tile_size : Z * Z)
    (ordering : list Z) (out_path : string) : M unit :=
  with_ (Image_open image_path) (λ image,
  with_ (m <- Image_mode image ;; sz <- Image_size image ;; Image_new m sz)
    (λ out_image,
      rearrange_body image out_image tile_size ordering out_path)).

(** The state on entry of the [with] block: the source opened, the
    destination allocated. *)
Definition opened (src : img) (w : world) : world :=
  set_heap (<[fresh_ref (heap w) := src]> (heap w)) w.
Definition entered (src : img) (w : world) : world :=
  let wa := opened src w in
  set_heap (<[fresh_ref (heap wa) := new_img (mode src) (size src)]> (heap wa)) wa.

(** The source pixel the rearranged picture shows at [(x, y)]: the pixel at
    the same offset inside the source tile that the ordering names for the
    slot of [(x, y)]. *)
Definition rearranged_px (src : img) (tile_size : Z * Z) (ordering : list Z)
    (x y : Z) : pixel :=
  let '(tw, th) := tile_size in
  let cols := Z.of_N (width src) / tw in
  let s := ordering !!! Z.to_nat ((y / th) * cols + x / tw) in
  px src (tw * (s mod cols) + x mod tw) (th * (s / cols) + y mod th).

(** [l.index(v)]: the first position of [v] in [l] (0 when absent). *)
Fixpoint index_of (v : Z) (l : list Z) : Z :=
  match l with
  | [] => 0
  | u :: l' => if u =? v then 0 else 1 + index_of v l'
  end.

(** The inverse of a permutation [P] of [0, len P): position [v] holds the
    slot where [P] has [v]. *)
Definition inverse_perm (P : list Z) : list Z :=
  (λ v, index_of v P) <$> range (len P).

(** The buffer pasted at grid position [p]: the source tile the ordering
    names for the slot of [p]. *)
Definition slot_img (src : img) (tile_size : Z * Z) (ordering : list Z)
    (cols : Z) (p : Z * Z) : img :=
  let s := ordering !!! Z.to_nat (p.1 * cols + p.2) in
  tile_img src tile_size (s mod cols) (s / cols).

(** The destination after the pastes of lines 91-95, from the buffer [d0]. *)
Definition pasted (src d0 : img) (tile_size : Z * Z) (ordering : list Z) : img :=
  let rows := Z.of_N (height src) / tile_size.2 in
  let cols := Z.of_N (width src) / tile_size.1 in
  foldl (λ d p, paste_img d (slot_img src tile_size ordering cols p)
                  (tile_size.1 * p.2, tile_size.2 * p.1))
        d0 (grid rows cols).

(** A 4x4 test picture whose pixel at (x, y) is [x + 4 * y]. *)
Definition img44 : img :=
  {| mode := "L"; width := 4; height := 4; px := λ x y, x + 4 * y |}.
Definition world44 : world := {| fs := {[ "in.png" := img44 ]}; heap := ∅ |}.

(** The rows of a picture as lists, for tests. *)
Definition pixel_rows (im : img) : list (list pixel) :=
  (λ y, (λ x, px im x y) <$> range (Z.of_N (width im)))
    <$> range (Z.of_N (height im)).

(** ** The properties under study *)

(** The four conditions of the geometry validator, each as Python evaluates
    it: [W % tw == 0] and [H % th == 0] are true only when the remainder
    exists and is 0. *)
Definition geometry_ok (image_size tile_size : Z * Z) (ordering : list Z) : Prop :=
  let '(W, H) := image_size in
  let '(tw, th) := tile_size in
  py_mod W tw = Ok 0 ∧ py_mod H th = Ok 0 ∧
  len ordering = (H / th) * (W / tw) ∧
  ordering ≡ₚ range ((H / th) * (W / tw)).

(** The inputs the validator is to reject: a length other than the tile
    count, a duplicate, a value outside the range, a tile size that does not
    divide the image. *)
Definition ill_formed (image_size tile_size : Z * Z) (ordering : list Z) : Prop :=
  let '(W, H) := image_size in
  let '(tw, th) := tile_size in
  len ordering ≠ (H / th) * (W / tw) ∨
  ¬ NoDup ordering ∨
  (∃ v, v ∈ ordering ∧ ¬ 0 ≤ v < (H / th) * (W / tw)) ∨
  py_mod W tw ≠ Ok 0 ∨ py_mod H th ≠ Ok 0.

(** The half-open rectangle of the tile in column [i], row [j]:
    left, top, right, bottom. *)
Definition tile_region (tile_size : Z * Z) (i j : Z) : Z * Z * Z * Z :=
  (tile_size.1 * i, tile_size.2 * j,
   tile_size.1 * (i + 1), tile_size.2 * (j + 1)).

(** What a call of [rearrange_tiles] does on a valid input, step by step:
    the source tiles in row-major order, the output list, the pastes, and the
    file saved from the destination buffer. *)
Definition rearrangement_trace (w : world) (path : string)
    (tile_size : Z * Z) (ordering : list Z) (out : string) : Prop :=
  ∃ (src : img) (tiles out_tiles : list ref) (w1 w2 w' : world),
    let image := fresh_ref (heap w) in
    let out_image := fresh_ref (heap (opened src w)) in
    let tile_rows := Z.of_N (height src) / tile_size.2 in
    let tile_cols := Z.of_N (width src) / tile_size.1 in
    fs w !! path = Some src ∧
    (* lines 83-86 *)
    tiles_loop image tile_size tile_rows tile_cols (entered src w)
      = (Ok tiles, w1) ∧
    (∀ r c, 0 ≤ r < tile_rows → 0 ≤ c < tile_cols →
       ∃ t, tiles !! Z.to_nat (r * tile_cols + c) = Some t ∧
            heap w1 !! t = Some (crop_img src (tile_region tile_size c r))) ∧
    (* lines 88-89 *)
    out_tiles_loop tiles ordering w1 = (Ok out_tiles, w1) ∧
    (∀ k, 0 ≤ k < len ordering →
       ∃ t, out_tiles !! Z.to_nat k = Some t ∧
            tiles !! Z.to_nat (ordering !!! Z.to_nat k) = Some t) ∧
    (* lines 91-95 *)
    paste_loop out_image out_tiles tile_size tile_rows tile_cols w1
      = (Ok (), w2) ∧
    (∃ dst, heap w2 !! out_image = Some dst ∧
       ∀ k t tl, 0 ≤ k < len ordering →
         out_tiles !! Z.to_nat k = Some t → heap w1 !! t = Some tl →
         ∀ dx dy, 0 ≤ dx < Z.of_N (width tl) → 0 ≤ dy < Z.of_N (height tl) →
           px dst (tile_size.1 * (k mod tile_cols) + dx)
                  (tile_size.2 * (k / tile_cols) + dy) = px tl dx dy) ∧
    (* line 97 and the exit of the [with] block *)
    rearrange_tiles path tile_size ordering out w = (Ok (), w') ∧
    fs w' !! out = heap w2 !! out_image.

(** Rearranging with the identity ordering of a valid input gives back the
    picture. *)
Definition identity_claim (w : world) (path : string) (tile_size : Z * Z)
    (out : string) : Prop :=
  ∀ (src : img) (N : Z),
    fs w !! path = Some src →
    valid_input (size src) tile_size (range N) = Ok true →
    ∃ w' dst,
      rearrange_tiles path tile_size (range N) out w = (Ok (), w') ∧
      fs w' !! out = Some dst ∧ pixel_identical dst src.

(** Rearranging a valid input with [P], then the result with the inverse of
    [P], gives back the picture. *)
Definition inverse_claim (w : world) (path : string) (tile_size : Z * Z)
    (P : list Z) (mid out : string) : Prop :=
  ∀ (src : img),
    fs w !! path = Some src →
    valid_input (size src) tile_size P = Ok true →
    ∃ w1 w2 dst,
      rearrange_tiles path tile_size P mid w = (Ok (), w1) ∧
      rearrange_tiles mid tile_size (inverse_perm P) out w1 = (Ok (), w2) ∧
      fs w2 !! out = Some dst ∧ pixel_identical dst src.

(** Rearranging with [P] and then with [Q]: slot [k] ends with the source
    tile [P[Q[k]]]. *)
Definition compose_ordering (P Q : list Z) : list Z :=
  (λ k, P !!! Z.to_nat k) <$> Q.

(** The pixel [(x, y)] lies in a half-open rectangle. *)
Definition in_region (box : Z * Z * Z * Z) (x y : Z) : Prop :=
  let '(x0, y0, x1, y1) := box in x0 ≤ x < x1 ∧ y0 ≤ y < y1.

(** ** Facts about the validators *)

Section validators.

Lemma seqZ_sorted m n : Sorted Z.le (seqZ m n).
Proof.
  destruct (decide (n ≤ 0)) as [Hn|Hn]; [rewrite seqZ_nil by lia; constructor|].
  rewrite <- (Z2Nat.id n) by lia. generalize (Z.to_nat n) as k. clear.
  induction k as [|k IH]; [constructor|].
  rewrite seqZ_S. apply Sorted_snoc; [done|].
  destruct k as [|k]; [constructor|].
  rewrite seqZ_S. apply TlRel_cons. lia.
Qed.

(** The comparison of each sorted element with its index, from index [k]. *)
Lemma all_enumerate_from (l : list Z) (k : nat) :
  all ((λ '(i, el), i =? el) <$> imap (λ i x, (Z.of_nat (k + i), x)) l) = true
  ↔ l = seqZ (Z.of_nat k) (len l).
Proof.
  revert k. induction l as [|x l IH]; intros k.
  { done. }
  unfold len. cbn [length]. rewrite seqZ_cons by lia.
  rewrite imap_cons. cbn [fmap list_fmap all forallb id].
  rewrite andb_true_iff.
  replace (Z.pred (Z.of_nat (S (length l)))) with (len l) by (unfold len; lia).
  replace (Z.succ (Z.of_nat k)) with (Z.of_nat (S k)) by lia.
  rewrite (imap_ext ((λ i x, (Z.of_nat (k + i), x)) ∘ S)
                    (λ i x, (Z.of_nat (S k + i), x)) l)
    by (intros; simpl; do 2 f_equal; lia).
  replace (k + 0)%nat with k by lia.
  split.
  - intros [->%Z.eqb_eq H]. f_equal. by apply IH.
  - intros [= <- H]. split; [apply Z.eqb_refl|by apply IH].
Qed.

Lemma is_unique_sorted (l : list Z) :
  is_unique l = true ↔ sorted l = range (len l).
Proof.
  unfold is_unique, enumerate, range.
  rewrite (all_enumerate_from (sorted l) 0). unfold len, sorted.
  by rewrite (Permutation_length (merge_sort_Permutation Z.le l)).
Qed.

Lemma is_unique_perm (l : list Z) :
  is_unique l = true ↔ l ≡ₚ range (len l).
Proof.
  rewrite is_unique_sorted. unfold sorted, range. split.
  - intros <-. symmetry. apply merge_sort_Permutation.
  - intros Hp. apply (Sorted_unique Z.le).
    + apply (Sorted_merge_sort Z.le).
    + apply seqZ_sorted.
    + by rewrite merge_sort_Permutation.
Qed.

Lemma is_unique_in_range (l : list Z) (v : Z) :
  is_unique l = true → v ∈ l → 0 ≤ v < len l.
Proof.
  rewrite is_unique_perm. intros Hp Hv. rewrite Hp in Hv.
  apply elem_of_seqZ in Hv. lia.
Qed.

(** What [valid_input] computes when no divisor is zero. *)
Lemma valid_input_nonzero (W H tw th : Z) (o : list Z) :
  tw ≠ 0 → th ≠ 0 →
  valid_input (W, H) (tw, th) o =
  Ok ((W mod tw =? 0) && (H mod th =? 0) &&
      (len o =? (H / th) * (W / tw)) && is_unique o).
Proof.
  intros Htw Hth. unfold valid_input, py_floordiv, py_mod.
  rewrite (proj2 (Z.eqb_neq tw 0)), (proj2 (Z.eqb_neq th 0)) by done.
  cbn [rbind].
  destruct (W mod tw =? 0); [|done].
  destruct (H mod th =? 0); [|done].
  by destruct (len o =? _).
Qed.

Lemma valid_input_zero (W H tw th : Z) (o : list Z) :
  tw = 0 ∨ th = 0 → valid_input (W, H) (tw, th) o = Raise ZeroDivisionError.
Proof.
  unfold valid_input, py_floordiv.
  destruct (Z.eqb_spec th 0) as [->|Hth]; [done|].
  intros [->|?]; [done|lia].
Qed.

Lemma valid_input_true_inv (W H tw th : Z) (o : list Z) :
  valid_input (W, H) (tw, th) o = Ok true →
  tw ≠ 0 ∧ th ≠ 0 ∧ W mod tw = 0 ∧ H mod th = 0 ∧
  len o = (H / th) * (W / tw) ∧ is_unique o = true.
Proof.
  intros Hv.
  destruct (decide (tw = 0)) as [->|Htw];
    [by rewrite valid_input_zero in Hv by auto|].
  destruct (decide (th = 0)) as [->|Hth];
    [by rewrite valid_input_zero in Hv by auto|].
  rewrite valid_input_nonzero in Hv by done.
  injection Hv as Hv. rewrite !andb_true_iff, !Z.eqb_eq in Hv.
  destruct Hv as [[[? ?] ?] ?]. auto 10.
Qed.

End validators.

(** ** Running the monad *)

Section monad.

Context {A B : Type}.

Lemma bind_ok (m : M A) (k : A → M B) w a w' :
  m w = (Ok a, w') → bind m k w = k a w'.
Proof. unfold bind. by intros ->. Qed.

Lemma bind_raise (m : M A) (k : A → M B) w e w' :
  m w = (Raise e, w') → bind m k w = (Raise e, w').
Proof. unfold bind. by intros ->. Qed.

Lemma bind_ok_inv (m : M A) (k : A → M B) w b w2 :
  bind m k w = (Ok b, w2) → ∃ a w1, m w = (Ok a, w1) ∧ k a w1 = (Ok b, w2).
Proof. unfold bind. destruct (m w) as [[a|e] w1]; [eauto|done]. Qed.

End monad.

Section loops.

Context {A S : Type}.

Lemma for_app (l1 l2 : list A) (body : A → S → M S) s w :
  for_ (l1 ++ l2) body s w = (s' <- for_ l1 body s ;; for_ l2 body s') w.
Proof.
  revert s w. induction l1 as [|x l1 IH]; intros s w; [done|].
  cbn [app for_]. unfold bind in IH |- *.
  destruct (body x s w) as [[s1|e] w1]; [apply IH|done].
Qed.

Lemma for_fmap {C} (h : C → A) (l : list C) (body : A → S → M S) s w :
  for_ (h <$> l) body s w = for_ l (λ c, body (h c)) s w.
Proof.
  revert s w. induction l as [|x l IH]; intros s w; [done|].
  cbn [fmap list_fmap for_]. unfold bind.
  destruct (body (h x) s w) as [[s1|e] w1]; [apply IH|done].
Qed.

End loops.

Section nested.

Context {S : Type}.

(** Two nested [for] loops run the body over the grid positions. *)
Lemma for_nested (rows cols : Z) (body : Z → Z → S → M S) s w :
  for_ (range rows) (λ i s, for_ (range cols) (λ j s, body i j s) s) s w =
  for_ (grid rows cols) (λ p s, body p.1 p.2 s) s w.
Proof.
  unfold grid. generalize (range rows) as l. intros l. revert s w.
  induction l as [|i l IH]; intros s w; [done|].
  rewrite bind_cons, for_app. cbn [for_]. unfold bind.
  rewrite for_fmap. cbn [fst snd].
  destruct (for_ (range cols) _ s w) as [[s1|e] w1]; [apply IH|done].
Qed.

End nested.

Lemma grid_empty (rows cols : Z) : rows ≤ 0 ∨ cols ≤ 0 → grid rows cols = [].
Proof.
  unfold grid, range. intros [Hr|Hc].
  - by rewrite (seqZ_nil 0 rows).
  - rewrite (seqZ_nil 0 cols) by done.
    induction (seqZ 0 rows) as [|i l IH]; [done|]. by rewrite bind_cons, IH.
Qed.

(** Position [k] of the grid is row [k / cols], column [k mod cols]. *)
Lemma grid_range (rows cols : Z) :
  0 ≤ rows → 0 < cols →
  grid rows cols = (λ k, (k / cols, k mod cols)) <$> range (rows * cols).
Proof.
  intros Hr Hc. unfold grid, range.
  rewrite <- (Z2Nat.id rows) by done. generalize (Z.to_nat rows) as n. clear Hr.
  induction n as [|n IH]; [done|].
  rewrite seqZ_S, bind_app, IH. cbn [mbind list_bind]. rewrite app_nil_r.
  replace (Z.of_nat (S n) * cols) with (Z.of_nat n * cols + cols) by lia.
  rewrite seqZ_app, fmap_app by lia. f_equal.
  rewrite !Z.add_0_l.
  replace (seqZ (Z.of_nat n * cols) cols)
    with (Z.add (Z.of_nat n * cols) <$> seqZ 0 cols)
    by (rewrite fmap_add_seqZ; f_equal; lia).
  rewrite <- list_fmap_compose. apply list_fmap_ext.
  intros k j [-> Hj]%lookup_seqZ. cbn [compose].
  rewrite Z.add_0_l. f_equal.
  - apply (Z.div_unique_pos _ _ _ (Z.of_nat k)); lia.
  - apply (Z.mod_unique_pos _ _ (Z.of_nat n)); lia.
Qed.

(** ** The object store *)

Section store.

Lemma fresh_ref_None (h : gmap nat img) : h !! fresh_ref h = None.
Proof. apply not_elem_of_dom. unfold fresh_ref. apply is_fresh. Qed.

Lemma load_run r im w : heap w !! r = Some im → load r w = (Ok im, w).
Proof. unfold load. by intros ->. Qed.

Lemma Image_crop_run r im box w :
  heap w !! r = Some im →
  Image_crop r box w =
  (Ok (fresh_ref (heap w)),
   set_heap (<[fresh_ref (heap w) := crop_img im box]> (heap w)) w).
Proof. intros Hr. unfold Image_crop. by rewrite (bind_ok _ _ _ _ _ (load_run _ _ _ Hr)). Qed.

Lemma get_tile_run image im tile_size i j w :
  heap w !! image = Some im →
  get_tile image tile_size i j w =
  (Ok (fresh_ref (heap w)),
   set_heap (<[fresh_ref (heap w) := tile_img im tile_size i j]> (heap w)) w).
Proof.
  intros Hr. destruct tile_size as [tw th]. unfold get_tile, tile_img.
  by rewrite (Image_crop_run _ _ _ _ Hr).
Qed.

Lemma Image_paste_run r t dst tl pos w :
  heap w !! r = Some dst → heap w !! t = Some tl →
  Image_paste r t pos w =
  (Ok (), set_heap (<[r := paste_img dst tl pos]> (heap w)) w).
Proof.
  intros Hr Ht. unfold Image_paste.
  rewrite (bind_ok _ _ _ _ _ (load_run _ _ _ Hr)).
  by rewrite (bind_ok _ _ _ _ _ (load_run _ _ _ Ht)).
Qed.

Lemma Image_paste_ok_inv r t pos w w2 :
  Image_paste r t pos w = (Ok (), w2) →
  ∃ dst tl, heap w !! r = Some dst ∧ heap w !! t = Some tl ∧
            heap w2 = <[r := paste_img dst tl pos]> (heap w) ∧ fs w2 = fs w.
Proof.
  unfold Image_paste, bind, load.
  destruct (heap w !! r) as [dst|]; [|done].
  destruct (heap w !! t) as [tl|]; [|done].
  intros [= <-]. by exists dst, tl.
Qed.

Lemma Image_save_run r im path w :
  heap w !! r = Some im →
  Image_save r path w = (Ok (), set_fs (<[path := im]> (fs w)) w).
Proof.
  intros Hr. unfold Image_save.
  by rewrite (bind_ok _ _ _ _ _ (load_run _ _ _ Hr)).
Qed.

End store.

(** ** The three loops *)

Section loops_run.

Lemma py_index_in_range {A} `{Inhabited A} (l : list A) (i : Z) :
  0 ≤ i < len l → py_index l i = Ok (l !!! Z.to_nat i).
Proof.
  intros Hi. unfold py_index.
  destruct (Z.ltb_spec i 0); [lia|].
  destruct (Z.ltb_spec i 0); [lia|].
  rewrite list_lookup_lookup_total_lt; [done|]. unfold len in Hi. lia.
Qed.

(** Lines 83-86 over any list of positions: each step allocates the crop of
    one position and appends its reference. *)
Lemma crop_loop image src tile_size (L : list (Z * Z)) :
  ∀ tiles0 w, heap w !! image = Some src →
  ∃ new w',
    for_ L (λ p tiles, tile <- get_tile image tile_size p.2 p.1 ;;
                       ret (tiles ++ [tile])) tiles0 w
      = (Ok (tiles0 ++ new), w') ∧
    fs w' = fs w ∧ heap w ⊆ heap w' ∧
    Forall2 (λ t p, heap w' !! t = Some (tile_img src tile_size p.2 p.1) ∧
                    heap w !! t = None) new L.
Proof.
  induction L as [|p L IH]; intros tiles0 w Himg.
  { exists [], w. rewrite app_nil_r. repeat split; [done|constructor]. }
  cbn [for_].
  rewrite (bind_ok _ _ _ _ _ (bind_ok _ _ _ _ _ (get_tile_run _ _ _ _ _ _ Himg))).
  cbn beta. set (t := fresh_ref (heap w)). set (w1 := set_heap _ w).
  assert (Hfresh : heap w !! t = None) by apply fresh_ref_None.
  assert (Hsub : heap w ⊆ heap w1) by (by apply insert_subseteq).
  destruct (IH (tiles0 ++ [t]) w1) as (new & w' & Hrun & Hfs & Hsub' & Hall).
  { by apply (lookup_weaken _ _ _ _ Himg). }
  exists (t :: new), w'. rewrite Hrun, <- app_assoc. repeat split; [done|by etrans|].
  constructor.
  - split; [|done]. apply (lookup_weaken (heap w1)); [|done].
    cbn. apply lookup_insert_eq.
  - eapply Forall2_impl; [exact Hall|]. cbn beta.
    intros t' p' [Ht' Hnone]. split; [done|].
    by apply (lookup_weaken_None (heap w) (heap w1)).
Qed.

Lemma tiles_loop_grid image tile_size rows cols w :
  tiles_loop image tile_size rows cols w =
  for_ (grid rows cols) (λ p tiles, tile <- get_tile image tile_size p.2 p.1 ;;
                                     ret (tiles ++ [tile])) [] w.
Proof.
  unfold tiles_loop.
  apply (for_nested rows cols
           (λ i j tiles, tile <- get_tile image tile_size j i ;; ret (tiles ++ [tile]))).
Qed.

Lemma perm_loop (tiles : list ref) (ordering : list Z) (L : list Z) w :
  len ordering = len tiles →
  Forall (λ v, 0 ≤ v < len tiles) ordering →
  Forall (λ k, 0 ≤ k < len tiles) L →
  ∀ acc,
    for_ L (λ i out_tiles,
      o <- lift (py_index ordering i) ;;
      t <- lift (py_index tiles o) ;;
      ret (out_tiles ++ [t])) acc w
    = (Ok (acc ++ ((λ k, tiles !!! Z.to_nat (ordering !!! Z.to_nat k)) <$> L)), w).
Proof.
  intros Hlen Hord. induction 1 as [|k L Hk HL IH]; intros acc.
  { cbn. by rewrite app_nil_r. }
  cbn [for_ fmap list_fmap]. unfold bind at 1 2 3, lift.
  rewrite py_index_in_range by lia.
  assert (Ho : 0 ≤ ordering !!! Z.to_nat k < len tiles).
  { apply (Forall_lookup_1 (λ v, 0 ≤ v < len tiles) ordering (Z.to_nat k));
      [exact Hord|].
    apply list_lookup_lookup_total_lt. unfold len in *. lia. }
  rewrite py_index_in_range by done. unfold ret at 1.
  rewrite IH, <- app_assoc. done.
Qed.

Lemma out_tiles_loop_run (tiles : list ref) (ordering : list Z) w :
  len ordering = len tiles →
  Forall (λ v, 0 ≤ v < len tiles) ordering →
  out_tiles_loop tiles ordering w = (Ok (permuted tiles ordering), w).
Proof.
  intros Hlen Hord. unfold out_tiles_loop, permuted.
  rewrite (perm_loop tiles ordering); [done..|].
  apply Forall_forall. intros k Hk%elem_of_seqZ. lia.
Qed.

(** Lines 91-95 over any list of positions: the destination object ends as
    the pastes folded over the list. [T p] is the buffer pasted at [p]. *)
Lemma paste_loop_list out (out_tiles : list ref) (tw th cols : Z)
    (T : Z * Z → img) (L : list (Z * Z)) :
  ∀ w d, heap w !! out = Some d →
  Forall (λ p, ∃ t, py_index out_tiles (p.1 * cols + p.2) = Ok t ∧ t ≠ out ∧
                    heap w !! t = Some (T p)) L →
  for_ L (λ p _, t <- lift (py_index out_tiles (p.1 * cols + p.2)) ;;
                 Image_paste out t (tw * p.2, th * p.1)) () w
  = (Ok (),
     set_heap (<[out := foldl (λ d p, paste_img d (T p) (tw * p.2, th * p.1)) d L]>
                 (heap w)) w).
Proof.
  induction L as [|p L IH]; intros w d Hout HL.
  { cbn. unfold ret, set_heap. rewrite insert_id by done. by destruct w. }
  apply Forall_cons in HL as [(t & Hidx & Hne & Ht) HL].
  cbn [for_ foldl]. unfold bind at 1 2. unfold lift at 1. rewrite Hidx.
  rewrite (Image_paste_run _ _ _ _ _ _ Hout Ht). cbn beta iota.
  set (d1 := paste_img d (T p) _). set (w1 := set_heap _ w).
  rewrite (IH w1 d1).
  - unfold w1, set_heap. cbn. by rewrite insert_insert_eq.
  - cbn. apply lookup_insert_eq.
  - eapply Forall_impl; [exact HL|]. cbn beta.
    intros p' (t' & ? & ? & ?). exists t'. repeat split; [done..|].
    cbn. by rewrite lookup_insert_ne.
Qed.

Lemma paste_loop_grid out out_tiles tw th rows cols w :
  paste_loop out out_tiles (tw, th) rows cols w =
  for_ (grid rows cols)
    (λ p _, t <- lift (py_index out_tiles (p.1 * cols + p.2)) ;;
            Image_paste out t (tw * p.2, th * p.1)) () w.
Proof.
  unfold paste_loop.
  apply (for_nested rows cols
           (λ i j _, t <- lift (py_index out_tiles (i * cols + j)) ;;
                     Image_paste out t (tw * j, th * i))).
Qed.

End loops_run.

(** ** The pixels of the pasted picture *)

Section pixels.

Lemma elem_of_grid rows cols i j :
  (i, j) ∈ grid rows cols ↔ 0 ≤ i < rows ∧ 0 ≤ j < cols.
Proof.
  unfold grid, range. rewrite list_elem_of_bind. split.
  - intros (i' & Hin & Hi'%elem_of_seqZ).
    apply list_elem_of_fmap in Hin as (j' & [= -> ->] & Hj'%elem_of_seqZ). lia.
  - intros [Hi Hj]. exists i. split; [|apply elem_of_seqZ; lia].
    apply list_elem_of_fmap. exists j. split; [done|apply elem_of_seqZ; lia].
Qed.

(** A tile of size [tw] x [th] pasted at grid position [p] covers the pixel
    [(x, y)] exactly when [p] is the pixel's row and column of the grid. *)
Lemma covers_iff (tw th x y : Z) (p : Z * Z) :
  0 < tw → 0 < th →
  (tw * p.2 <=? x) && (x <? tw * p.2 + tw) &&
  (th * p.1 <=? y) && (y <? th * p.1 + th) = true
  ↔ p = (y / th, x / tw).
Proof.
  intros Htw Hth. destruct p as [i j]. cbn [fst snd].
  rewrite !andb_true_iff, !Z.leb_le, !Z.ltb_lt.
  pose proof (Z.div_mod x tw ltac:(lia)) as Hx.
  pose proof (Z.mod_pos_bound x tw Htw) as Hxm.
  pose proof (Z.div_mod y th ltac:(lia)) as Hy.
  pose proof (Z.mod_pos_bound y th Hth) as Hym.
  split.
  - intros [[[? ?] ?] ?]. f_equal.
    + apply (Z.div_unique_pos y th i (y - th * i)); lia.
    + apply (Z.div_unique_pos x tw j (x - tw * j)); lia.
  - intros [= -> ->]. lia.
Qed.

Lemma paste_fold_frame (T : Z * Z → img) (tw th : Z) (L : list (Z * Z)) d :
  let d' := foldl (λ d p, paste_img d (T p) (tw * p.2, th * p.1)) d L in
  mode d' = mode d ∧ width d' = width d ∧ height d' = height d.
Proof.
  revert d. induction L as [|p L IH]; intros d; [done|].
  cbn [foldl]. destruct (IH (paste_img d (T p) (tw * p.2, th * p.1))) as (? & ? & ?).
  done.
Qed.

(** After the pastes over a list of positions, a pixel shows the tile of its
    own grid position if that position is in the list, and is untouched
    otherwise. *)
Lemma px_paste_fold (T : Z * Z → img) (tw th : Z) (L : list (Z * Z)) d x y :
  0 < tw → 0 < th →
  Forall (λ p, Z.of_N (width (T p)) = tw ∧ Z.of_N (height (T p)) = th) L →
  px (foldl (λ d p, paste_img d (T p) (tw * p.2, th * p.1)) d L) x y =
  if decide ((y / th, x / tw) ∈ L)
  then px (T (y / th, x / tw)) (x mod tw) (y mod th)
  else px d x y.
Proof.
  intros Htw Hth HL. revert d.
  induction HL as [|p L [Hw Hh] HL IH]; intros d.
  { cbn. by rewrite decide_False by apply not_elem_of_nil. }
  cbn [foldl]. rewrite IH.
  destruct (decide ((y / th, x / tw) ∈ L)) as [Hin|Hnin].
  { by rewrite decide_True by (by apply list_elem_of_further). }
  cbn [paste_img px]. rewrite Hw, Hh.
  destruct (_ && _) eqn:Hc.
  - apply covers_iff in Hc as ->; [|done..].
    rewrite decide_True by apply list_elem_of_here. cbn [fst snd].
    f_equal; rewrite Z.mod_eq by lia; lia.
  - rewrite decide_False; [done|].
    intros [Heq|?]%elem_of_cons; [|done].
    apply not_true_iff_false in Hc. apply Hc. by apply covers_iff.
Qed.

End pixels.

(** ** The grid *)

Section grid_facts.

Lemma grid_lookup rows cols (k : nat) p :
  grid rows cols !! k = Some p →
  p = (Z.of_nat k / cols, Z.of_nat k mod cols) ∧ Z.of_nat k < rows * cols.
Proof.
  destruct (decide (0 ≤ rows ∧ 0 < cols)) as [[Hr Hc]|Hn].
  - rewrite grid_range by done. unfold range. rewrite list_lookup_fmap.
    destruct (seqZ 0 (rows * cols) !! k) as [k'|] eqn:Hk; [|done].
    apply lookup_seqZ in Hk as [-> Hk]. rewrite Z.add_0_l. by intros [= <-].
  - rewrite grid_empty by lia. done.
Qed.

Lemma grid_lookup_lt rows cols (k : Z) :
  0 ≤ rows → 0 ≤ cols → 0 ≤ k < rows * cols →
  grid rows cols !! Z.to_nat k = Some (k / cols, k mod cols).
Proof.
  intros Hr Hc Hk. assert (0 < cols) by nia.
  rewrite grid_range by done. unfold range. rewrite list_lookup_fmap.
  rewrite lookup_seqZ_lt by lia. cbn. by rewrite Z.add_0_l, Z2Nat.id by lia.
Qed.

Lemma slot_bounds (rows cols i j : Z) :
  0 ≤ i < rows → 0 ≤ j < cols → 0 ≤ i * cols + j < rows * cols.
Proof.
  intros Hi Hj.
  assert (0 ≤ i * cols) by (apply Z.mul_nonneg_nonneg; lia).
  assert (i * cols ≤ (rows - 1) * cols) by (apply Z.mul_le_mono_nonneg_r; lia).
  lia.
Qed.

Lemma div_nonneg_neg (a b : Z) : 0 ≤ a → b < 0 → a / b ≤ 0.
Proof.
  intros Ha Hb. pose proof (Z.div_mod a b ltac:(lia)).
  pose proof (Z.mod_neg_bound a b Hb). nia.
Qed.

Lemma length_grid rows cols :
  0 ≤ rows → 0 ≤ cols → len (grid rows cols) = rows * cols.
Proof.
  intros Hr Hc. destruct (decide (cols = 0)) as [->|Hne].
  - rewrite grid_empty by lia. unfold len. cbn. lia.
  - rewrite grid_range by lia. unfold len, range.
    rewrite length_fmap, length_seqZ. nia.
Qed.

End grid_facts.

(** ** The three loops on a valid input with positive tile dimensions *)

Section phases.

Context (w : world) (image out_image : ref) (src d0 : img).
Context (tw th : Z) (ordering : list Z).
Hypothesis Himage : heap w !! image = Some src.
Hypothesis Hout : heap w !! out_image = Some d0.
Hypothesis Hvalid : valid_input (size src) (tw, th) ordering = Ok true.
Hypothesis Htw : 0 < tw.
Hypothesis Hth : 0 < th.

Local Abbreviation rows := (Z.of_N (height src) / th).
Local Abbreviation cols := (Z.of_N (width src) / tw).

Lemma valid_geometry :
  0 ≤ rows ∧ 0 ≤ cols ∧
  Z.of_N (width src) = tw * cols ∧ Z.of_N (height src) = th * rows ∧
  len ordering = rows * cols ∧
  Forall (λ v, 0 ≤ v < rows * cols) ordering.
Proof.
  apply valid_input_true_inv in Hvalid as (_ & _ & Hmw & Hmh & Hlen & Huniq).
  repeat split.
  - apply Z.div_pos; lia.
  - apply Z.div_pos; lia.
  - pose proof (Z.div_mod (Z.of_N (width src)) tw). lia.
  - pose proof (Z.div_mod (Z.of_N (height src)) th). lia.
  - done.
  - apply Forall_forall. intros v Hv. rewrite <- Hlen.
    by apply is_unique_in_range.
Qed.

Lemma tiles_loop_run :
  ∃ tiles w1,
    tiles_loop image (tw, th) rows cols w = (Ok tiles, w1) ∧
    fs w1 = fs w ∧ heap w ⊆ heap w1 ∧
    Forall2 (λ t p, heap w1 !! t = Some (tile_img src (tw, th) p.2 p.1) ∧
                    heap w !! t = None) tiles (grid rows cols).
Proof.
  rewrite tiles_loop_grid.
  destruct (crop_loop image src (tw, th) (grid rows cols) [] w Himage)
    as (tiles & w1 & Hrun & ? & ? & ?).
  by exists tiles, w1.
Qed.

Lemma phases_run :
  ∃ tiles w1,
    tiles_loop image (tw, th) rows cols w = (Ok tiles, w1) ∧
    fs w1 = fs w ∧ heap w ⊆ heap w1 ∧
    Forall2 (λ t p, heap w1 !! t = Some (tile_img src (tw, th) p.2 p.1) ∧
                    heap w !! t = None) tiles (grid rows cols) ∧
    out_tiles_loop tiles ordering w1 = (Ok (permuted tiles ordering), w1) ∧
    paste_loop out_image (permuted tiles ordering) (tw, th) rows cols w1 =
      (Ok (), set_heap (<[out_image := pasted src d0 (tw, th) ordering]> (heap w1)) w1).
Proof.
  destruct valid_geometry as (Hr & Hc & HW & HH & Hlen & Hord).
  destruct tiles_loop_run as (tiles & w1 & Hrun & Hfs & Hsub & Htiles).
  exists tiles, w1.
  assert (Hlt : len tiles = rows * cols).
  { unfold len. rewrite (Forall2_length _ _ _ Htiles).
    by apply length_grid. }
  repeat split; [done..| |].
  { apply out_tiles_loop_run; [lia|]. by rewrite Hlt. }
  rewrite paste_loop_grid.
  apply (paste_loop_list out_image (permuted tiles ordering) tw th cols
           (slot_img src (tw, th) ordering cols)).
  { by apply (lookup_weaken (heap w)). }
  apply Forall_forall. intros [i j] [Hi Hj]%elem_of_grid. cbn [fst snd].
  assert (Hk : 0 ≤ i * cols + j < rows * cols) by (by apply slot_bounds).
  set (k := i * cols + j) in *.
  assert (Hs : 0 ≤ ordering !!! Z.to_nat k < rows * cols).
  { apply (Forall_lookup_1 (λ v, 0 ≤ v < rows * cols) ordering (Z.to_nat k));
      [done|].
    apply list_lookup_lookup_total_lt. unfold len in Hlen. lia. }
  set (s := ordering !!! Z.to_nat k) in *.
  exists (tiles !!! Z.to_nat s).
  assert (Ht : tiles !! Z.to_nat s = Some (tiles !!! Z.to_nat s)).
  { apply list_lookup_lookup_total_lt. unfold len in Hlt. lia. }
  destruct (Forall2_lookup_lr _ _ _ _ _ _ Htiles Ht
              (grid_lookup_lt rows cols s Hr Hc Hs)) as [Hheap Hnone].
  cbn [fst snd] in Hheap. split; [|split].
  - rewrite py_index_in_range.
    + f_equal. unfold permuted, range.
      rewrite (list_lookup_total_fmap _ (seqZ 0 (len tiles)))
        by (rewrite length_seqZ; lia).
      rewrite lookup_total_seqZ_lt by lia.
      rewrite Z.add_0_l, Z2Nat.id by lia. done.
    + unfold permuted, len, range. rewrite length_fmap, length_seqZ.
      fold (len tiles). lia.
  - intros Heq. rewrite Heq in Hnone. congruence.
  - unfold slot_img. cbn [fst snd]. fold k. fold s. exact Hheap.
Qed.

End phases.

(** ** The whole call *)

Section whole.

Lemma rearrange_tiles_unfold path tile_size ordering out w src :
  fs w !! path = Some src →
  rearrange_tiles path tile_size ordering out w =
  let image := fresh_ref (heap w) in
  let out_image := fresh_ref (heap (opened src w)) in
  let '(res, w3) :=
    rearrange_body image out_image tile_size ordering out (entered src w) in
  (res, Image_close image (Image_close out_image w3)).
Proof.
  intros Hfs. unfold rearrange_tiles, with_ at 1, Image_open. rewrite Hfs.
  unfold alloc at 1. cbn zeta. fold (opened src w).
  unfold with_ at 1.
  assert (Ha : heap (opened src w) !! fresh_ref (heap w) = Some src)
    by apply lookup_insert_eq.
  unfold Image_mode, Image_size.
  rewrite (bind_ok _ _ _ _ _ (bind_ok _ _ _ _ _ (load_run _ _ _ Ha))).
  cbn beta.
  rewrite (bind_ok _ _ _ _ _ (bind_ok _ _ _ _ _ (load_run _ _ _ Ha))).
  cbn beta. unfold Image_new.
  replace ((size src).1 <? 0) with false by (symmetry; apply Z.ltb_ge; cbn; lia).
  replace ((size src).2 <? 0) with false by (symmetry; apply Z.ltb_ge; cbn; lia).
  cbn [orb]. unfold alloc. cbn zeta. fold (entered src w).
  by destruct (rearrange_body _ _ _ _ _ _).
Qed.

Lemma entered_image src w :
  heap (entered src w) !! fresh_ref (heap w) = Some src.
Proof.
  unfold entered. cbn [heap set_heap]. rewrite lookup_insert_ne.
  - apply lookup_insert_eq.
  - intros Heq. pose proof (fresh_ref_None (heap (opened src w))) as Hn.
    rewrite Heq in Hn. unfold opened in Hn. cbn [heap set_heap] in Hn.
    by rewrite lookup_insert_eq in Hn.
Qed.

Lemma entered_out_image src w :
  heap (entered src w) !! fresh_ref (heap (opened src w))
  = Some (new_img (mode src) (size src)).
Proof. unfold entered. cbn [heap set_heap]. apply lookup_insert_eq. Qed.

Lemma entered_fs src w : fs (entered src w) = fs w.
Proof. done. Qed.

Lemma rearrange_body_zero image out_image src tw th ordering out w :
  heap w !! image = Some src → tw = 0 ∨ th = 0 →
  rearrange_body image out_image (tw, th) ordering out w
  = (Raise ZeroDivisionError, w).
Proof.
  intros Himg Hz. unfold rearrange_body, Image_size.
  rewrite (bind_ok _ _ _ _ _ (bind_ok _ _ _ _ _ (load_run _ _ _ Himg))).
  cbn beta. unfold size at 1. cbv beta iota.
  unfold bind at 1, lift at 1, py_floordiv at 1.
  destruct (Z.eqb_spec th 0) as [->|Hth]; [done|].
  unfold bind at 1, lift at 1, py_floordiv at 1.
  destruct (Z.eqb_spec tw 0) as [->|Htw]; [done|lia].
Qed.

Lemma rearrange_body_nonzero image out_image src tw th ordering out w :
  heap w !! image = Some src → tw ≠ 0 → th ≠ 0 →
  rearrange_body image out_image (tw, th) ordering out w =
  (valid <- lift (valid_input (size src) (tw, th) ordering) ;;
   if negb valid then raise (ValueError invalid_msg) else
   tiles <- tiles_loop image (tw, th)
              (Z.of_N (height src) / th) (Z.of_N (width src) / tw) ;;
   out_tiles <- out_tiles_loop tiles ordering ;;
   _ <- paste_loop out_image out_tiles (tw, th)
          (Z.of_N (height src) / th) (Z.of_N (width src) / tw) ;;
   Image_save out_image out) w.
Proof.
  intros Himg Htw Hth. unfold rearrange_body, Image_size.
  rewrite (bind_ok _ _ _ _ _ (bind_ok _ _ _ _ _ (load_run _ _ _ Himg))).
  cbn beta. unfold size at 1. cbv beta iota.
  unfold bind at 1, lift at 1, py_floordiv at 1.
  rewrite (proj2 (Z.eqb_neq th 0)) by done.
  unfold bind at 1, lift at 1, py_floordiv at 1.
  rewrite (proj2 (Z.eqb_neq tw 0)) by done. done.
Qed.

Lemma rearrange_body_invalid image out_image src tile_size ordering out w :
  heap w !! image = Some src →
  valid_input (size src) tile_size ordering = Ok false →
  rearrange_body image out_image tile_size ordering out w
  = (Raise (ValueError invalid_msg), w).
Proof.
  intros Himg Hv. destruct tile_size as [tw th].
  destruct (decide (tw = 0 ∨ th = 0)) as [Hz|Hnz].
  { unfold size in Hv. by rewrite valid_input_zero in Hv. }
  rewrite (rearrange_body_nonzero _ _ src) by (done || lia).
  unfold bind at 1, lift at 1. by rewrite Hv.
Qed.

Lemma rearrange_body_valid image out_image src d0 tile_size ordering out w :
  heap w !! image = Some src → heap w !! out_image = Some d0 →
  valid_input (size src) tile_size ordering = Ok true →
  ∃ w', rearrange_body image out_image tile_size ordering out w = (Ok (), w') ∧
        fs w' = <[out := pasted src d0 tile_size ordering]> (fs w).
Proof.
  intros Himg Hout Hv. destruct tile_size as [tw th].
  pose proof Hv as (Htw & Hth & _)%valid_input_true_inv.
  rewrite (rearrange_body_nonzero _ _ src) by done.
  unfold bind at 1, lift at 1. rewrite Hv. cbn [negb].
  destruct (decide (0 < tw ∧ 0 < th)) as [[Hptw Hpth]|Hneg].
  - destruct (phases_run w image out_image src d0 tw th ordering)
      as (tiles & w1 & Ht & Hfs & Hsub & _ & Ho & Hp); [done..|].
    rewrite (bind_ok _ _ _ _ _ Ht), (bind_ok _ _ _ _ _ Ho), (bind_ok _ _ _ _ _ Hp).
    erewrite Image_save_run by (cbn [heap set_heap]; apply lookup_insert_eq).
    eexists. split; [done|]. cbn [fs set_fs set_heap]. by rewrite Hfs.
  - assert (Hg : grid (Z.of_N (height src) / th) (Z.of_N (width src) / tw) = []).
    { apply grid_empty.
      destruct (decide (th < 0)).
      - left. apply div_nonneg_neg; lia.
      - right. apply div_nonneg_neg; lia. }
    assert (Ht : tiles_loop image (tw, th) (Z.of_N (height src) / th)
                   (Z.of_N (width src) / tw) w = (Ok [], w))
      by (by rewrite tiles_loop_grid, Hg).
    assert (Ho : out_tiles_loop [] ordering w = (Ok [], w)) by done.
    assert (Hp : paste_loop out_image [] (tw, th) (Z.of_N (height src) / th)
                   (Z.of_N (width src) / tw) w = (Ok (), w))
      by (by rewrite paste_loop_grid, Hg).
    rewrite (bind_ok _ _ _ _ _ Ht), (bind_ok _ _ _ _ _ Ho), (bind_ok _ _ _ _ _ Hp).
    rewrite (Image_save_run _ _ _ _ Hout).
    eexists. split; [done|]. unfold pasted. cbn [fst snd]. by rewrite Hg.
Qed.

Lemma rearrange_tiles_missing path tile_size ordering out w :
  fs w !! path = None →
  rearrange_tiles path tile_size ordering out w = (Raise FileNotFoundError, w).
Proof. intros Hfs. unfold rearrange_tiles, with_, Image_open. by rewrite Hfs. Qed.

Lemma rearrange_tiles_zero path tw th ordering out w src :
  fs w !! path = Some src → tw = 0 ∨ th = 0 →
  ∃ w', rearrange_tiles path (tw, th) ordering out w
          = (Raise ZeroDivisionError, w') ∧ fs w' = fs w.
Proof.
  intros Hfs Hz. rewrite (rearrange_tiles_unfold _ _ _ _ _ _ Hfs). cbn zeta.
  rewrite (rearrange_body_zero _ _ src) by (apply entered_image || done).
  eexists. split; done.
Qed.

Lemma rearrange_tiles_rejects path tile_size ordering out w src :
  fs w !! path = Some src →
  valid_input (size src) tile_size ordering = Ok false →
  ∃ w', rearrange_tiles path tile_size ordering out w
          = (Raise (ValueError invalid_msg), w') ∧ fs w' = fs w.
Proof.
  intros Hfs Hv. rewrite (rearrange_tiles_unfold _ _ _ _ _ _ Hfs). cbn zeta.
  rewrite (rearrange_body_invalid _ _ src) by (apply entered_image || done).
  eexists. split; done.
Qed.

Lemma rearrange_tiles_valid path tile_size ordering out w src :
  fs w !! path = Some src →
  valid_input (size src) tile_size ordering = Ok true →
  ∃ w', rearrange_tiles path tile_size ordering out w = (Ok (), w') ∧
        fs w' = <[out := pasted src (new_img (mode src) (size src))
                            tile_size ordering]> (fs w).
Proof.
  intros Hfs Hv. rewrite (rearrange_tiles_unfold _ _ _ _ _ _ Hfs). cbn zeta.
  destruct (rearrange_body_valid (fresh_ref (heap w))
              (fresh_ref (heap (opened src w))) src
              (new_img (mode src) (size src)) tile_size ordering out
              (entered src w)) as (w3 & Hrun & Hfs3);
    [apply entered_image|apply entered_out_image|done|].
  rewrite Hrun. eexists. split; [done|]. cbn [Image_close fs set_heap].
  by rewrite Hfs3.
Qed.

End whole.

(** ** The rearranged picture, pixel by pixel *)

Section picture.

Context (src d0 : img) (tw th : Z) (ordering : list Z).
Hypothesis Hvalid : valid_input (size src) (tw, th) ordering = Ok true.

Lemma pasted_frame :
  mode (pasted src d0 (tw, th) ordering) = mode d0 ∧
  width (pasted src d0 (tw, th) ordering) = width d0 ∧
  height (pasted src d0 (tw, th) ordering) = height d0.
Proof. apply paste_fold_frame. Qed.

Hypothesis Htw : 0 < tw.
Hypothesis Hth : 0 < th.

Local Abbreviation rows := (Z.of_N (height src) / th).
Local Abbreviation cols := (Z.of_N (width src) / tw).

(** The slot of an in-bounds pixel and the source tile named for it. *)
Lemma pixel_slot x y :
  0 ≤ x < Z.of_N (width src) → 0 ≤ y < Z.of_N (height src) →
  0 ≤ y / th < rows ∧ 0 ≤ x / tw < cols ∧
  0 ≤ ordering !!! Z.to_nat (y / th * cols + x / tw) < rows * cols.
Proof.
  intros Hx Hy.
  destruct (valid_geometry src tw th ordering Hvalid Htw Hth)
    as (Hr & Hc & HW & HH & Hlen & Hord).
  assert (Hi : 0 ≤ y / th < rows).
  { split; [apply Z.div_pos; lia|]. apply Z.div_lt_upper_bound; lia. }
  assert (Hj : 0 ≤ x / tw < cols).
  { split; [apply Z.div_pos; lia|]. apply Z.div_lt_upper_bound; lia. }
  pose proof (slot_bounds rows cols (y / th) (x / tw) Hi Hj) as Hk.
  assert (Hlook : ordering !! Z.to_nat (y / th * cols + x / tw)
                  = Some (ordering !!! Z.to_nat (y / th * cols + x / tw)))
    by (apply list_lookup_lookup_total_lt; unfold len in Hlen; lia).
  pose proof (Forall_lookup_1 _ _ _ _ Hord Hlook) as Hs. cbn beta in Hs.
  repeat split; lia.
Qed.

Lemma pasted_px_slot x y :
  0 ≤ x < Z.of_N (width src) → 0 ≤ y < Z.of_N (height src) →
  px (pasted src d0 (tw, th) ordering) x y
  = px (slot_img src (tw, th) ordering cols (y / th, x / tw))
       (x mod tw) (y mod th).
Proof.
  intros Hx Hy.
  destruct (pixel_slot x y Hx Hy) as (Hi & Hj & Hs).
  unfold pasted. cbn [fst snd].
  rewrite (px_paste_fold _ tw th) by
    (try done; apply Forall_forall; intros p _; unfold slot_img, tile_img;
     cbn [fst snd crop_img width height]; lia).
  by rewrite decide_True by (by apply elem_of_grid).
Qed.

Lemma pasted_px x y :
  0 ≤ x < Z.of_N (width src) → 0 ≤ y < Z.of_N (height src) →
  px (pasted src d0 (tw, th) ordering) x y
  = rearranged_px src (tw, th) ordering x y.
Proof.
  intros Hx Hy. rewrite pasted_px_slot by done.
  destruct (valid_geometry src tw th ordering Hvalid Htw Hth)
    as (Hr & Hc & HW & HH & Hlen & Hord).
  destruct (pixel_slot x y Hx Hy) as (Hi & Hj & Hs).
  unfold slot_img, rearranged_px, tile_img. cbn [fst snd crop_img px].
  set (s := ordering !!! _) in *.
  unfold getpixel, in_bounds.
  assert (0 < cols) by lia.
  pose proof (Z.mod_pos_bound s cols ltac:(lia)).
  pose proof (Z.mod_pos_bound x tw Htw).
  pose proof (Z.mod_pos_bound y th Hth).
  assert (0 ≤ s / cols < rows).
  { split; [apply Z.div_pos; lia|]. apply Z.div_lt_upper_bound; lia. }
  assert (tw * (s mod cols) + x mod tw < tw * cols) by nia.
  assert (th * (s / cols) + y mod th < th * rows) by nia.
  rewrite !andb_true_intro; [done|].
  rewrite !andb_true_iff, !Z.leb_le, !Z.ltb_lt. nia.
Qed.

End picture.

(** ** Inverse permutations *)

Section inverse.

Lemma index_of_elem (v : Z) (l : list Z) :
  v ∈ l → 0 ≤ index_of v l < len l ∧ l !! Z.to_nat (index_of v l) = Some v.
Proof.
  unfold len. induction l as [|u l IH]; [by intros ?%elem_of_nil|].
  intros Hv. cbn [index_of length].
  destruct (Z.eqb_spec u v) as [->|Hne]; [split; [lia|done]|].
  apply elem_of_cons in Hv as [->|Hv]; [done|].
  destruct (IH Hv) as [Hb Hl]. split; [lia|].
  replace (Z.to_nat (1 + index_of v l)) with (S (Z.to_nat (index_of v l))) by lia.
  done.
Qed.

Context (P : list Z) (n : Z).
Hypothesis Hlen : len P = n.
Hypothesis Hperm : P ≡ₚ range n.

Lemma perm_elem (v : Z) : 0 ≤ v < n → v ∈ P.
Proof. intros Hv. rewrite Hperm. apply elem_of_seqZ. lia. Qed.

Lemma inverse_perm_lookup (v : Z) :
  0 ≤ v < n → inverse_perm P !!! Z.to_nat v = index_of v P.
Proof.
  intros Hv. unfold inverse_perm, range.
  rewrite (list_lookup_total_fmap _ (seqZ 0 (len P)))
    by (rewrite length_seqZ; lia).
  rewrite lookup_total_seqZ_lt by lia. f_equal. lia.
Qed.

(** [P] after its inverse is the identity. *)
Lemma perm_inverse_perm (v : Z) :
  0 ≤ v < n → P !!! Z.to_nat (inverse_perm P !!! Z.to_nat v) = v.
Proof.
  intros Hv. rewrite inverse_perm_lookup by done.
  destruct (index_of_elem v P (perm_elem v Hv)) as [_ Hl].
  by apply list_lookup_total_correct.
Qed.

(** The inverse after [P] is the identity. *)
Lemma inverse_perm_perm (k : Z) :
  0 ≤ k < n → inverse_perm P !!! Z.to_nat (P !!! Z.to_nat k) = k.
Proof.
  intros Hk.
  assert (Hl : P !! Z.to_nat k = Some (P !!! Z.to_nat k))
    by (apply list_lookup_lookup_total_lt; unfold len in Hlen; lia).
  assert (Hv : P !!! Z.to_nat k ∈ P) by (by apply list_elem_of_lookup_2 in Hl).
  assert (Hr : P !!! Z.to_nat k ∈ range n)
    by (eapply elem_of_Permutation_proper; [symmetry; exact Hperm|done]).
  apply elem_of_seqZ in Hr.
  rewrite inverse_perm_lookup by lia.
  destruct (index_of_elem _ P Hv) as [Hb Hi].
  assert (HND : NoDup P) by (rewrite Hperm; apply NoDup_seqZ).
  pose proof (NoDup_lookup P _ _ _ HND Hi Hl). lia.
Qed.

Lemma inverse_perm_Permutation : inverse_perm P ≡ₚ range n.
Proof.
  assert (Hl : length (inverse_perm P) = length (range n)).
  { unfold inverse_perm, range. rewrite length_fmap, !length_seqZ. lia. }
  apply submseteq_length_Permutation; [|lia].
  apply NoDup_submseteq.
  - unfold inverse_perm. apply NoDup_fmap_2_strong; [|apply NoDup_seqZ].
    intros u v Hu%elem_of_seqZ Hv%elem_of_seqZ Heq.
    destruct (index_of_elem u P) as [_ Hlu]; [apply perm_elem; lia|].
    destruct (index_of_elem v P) as [_ Hlv]; [apply perm_elem; lia|].
    rewrite Heq in Hlu. congruence.
  - intros i (v & -> & Hv%elem_of_seqZ)%list_elem_of_fmap.
    destruct (index_of_elem v P) as [Hb _]; [apply perm_elem; lia|].
    apply elem_of_seqZ. lia.
Qed.

End inverse.

(** ** Identity and inverse orderings, pixel by pixel *)

Section orderings.

Lemma divmod_tile (b q r : Z) :
  0 ≤ r < b → (b * q + r) / b = q ∧ (b * q + r) mod b = r.
Proof.
  intros Hr. split; symmetry.
  - by apply (Z.div_unique_pos _ b q r).
  - by apply (Z.mod_unique_pos _ b q r).
Qed.

Lemma divmod_slot (cols i j : Z) :
  0 ≤ j < cols → (i * cols + j) / cols = i ∧ (i * cols + j) mod cols = j.
Proof. intros Hj. rewrite (Z.mul_comm i cols). by apply divmod_tile. Qed.

Context (src : img) (tw th : Z).
Hypothesis Htw : 0 < tw.
Hypothesis Hth : 0 < th.

Local Abbreviation rows := (Z.of_N (height src) / th).
Local Abbreviation cols := (Z.of_N (width src) / tw).

Lemma rearranged_px_identity x y :
  valid_input (size src) (tw, th) (range (rows * cols)) = Ok true →
  0 ≤ x < Z.of_N (width src) → 0 ≤ y < Z.of_N (height src) →
  rearranged_px src (tw, th) (range (rows * cols)) x y = px src x y.
Proof.
  intros Hv Hx Hy.
  destruct (pixel_slot src tw th _ Hv Htw Hth x y Hx Hy) as (Hi & Hj & _).
  pose proof (slot_bounds rows cols _ _ Hi Hj) as Hk.
  unfold rearranged_px, range. rewrite lookup_total_seqZ_lt by lia.
  rewrite Z.add_0_l, Z2Nat.id by lia.
  destruct (divmod_slot cols (y / th) (x / tw) Hj) as [-> ->].
  rewrite (Z.mod_eq x tw), (Z.mod_eq y th) by lia. f_equal; lia.
Qed.

Context (P : list Z).
Hypothesis Hvalid : valid_input (size src) (tw, th) P = Ok true.

Lemma valid_Permutation : P ≡ₚ range (rows * cols).
Proof.
  apply valid_input_true_inv in Hvalid as (_ & _ & _ & _ & Hlen & Hu).
  apply is_unique_perm in Hu. by rewrite <- Hlen.
Qed.

Lemma valid_len : len P = rows * cols.
Proof. by apply valid_input_true_inv in Hvalid as (_ & _ & _ & _ & Hlen & _). Qed.

(** The inverse ordering is valid for any picture of the same size. *)
Lemma inverse_perm_valid (d1 : img) :
  size d1 = size src →
  valid_input (size d1) (tw, th) (inverse_perm P) = Ok true.
Proof.
  intros ->. pose proof Hvalid as (_ & _ & Hmw & Hmh & Hlen & _)%valid_input_true_inv.
  unfold size. rewrite valid_input_nonzero by lia.
  rewrite Hmw, Hmh. cbn [Z.eqb andb]. f_equal.
  assert (Hl : len (inverse_perm P) = rows * cols).
  { unfold inverse_perm, len, range. rewrite length_fmap, length_seqZ.
    unfold len in Hlen. lia. }
  rewrite Hl, Z.eqb_refl. cbn [andb].
  apply is_unique_perm. rewrite Hl.
  apply inverse_perm_Permutation; [exact valid_len|exact valid_Permutation].
Qed.

Lemma rearranged_px_inverse (d1 : img) x y :
  width d1 = width src →
  (∀ x y, 0 ≤ x < Z.of_N (width src) → 0 ≤ y < Z.of_N (height src) →
          px d1 x y = rearranged_px src (tw, th) P x y) →
  0 ≤ x < Z.of_N (width src) → 0 ≤ y < Z.of_N (height src) →
  rearranged_px d1 (tw, th) (inverse_perm P) x y = px src x y.
Proof.
  intros Hw Hd1 Hx Hy.
  destruct (valid_geometry src tw th P Hvalid Htw Hth)
    as (Hr & Hc & HW & HH & Hlen & Hord).
  destruct (pixel_slot src tw th P Hvalid Htw Hth x y Hx Hy) as (Hi & Hj & _).
  pose proof (slot_bounds rows cols _ _ Hi Hj) as Hk.
  unfold rearranged_px at 1. rewrite Hw.
  set (k := y / th * cols + x / tw) in *.
  rewrite (inverse_perm_lookup P (rows * cols) valid_len k Hk).
  destruct (index_of_elem k P) as [Hs Hl].
  { by apply (perm_elem P (rows * cols) valid_Permutation). }
  rewrite valid_len in Hs. set (s' := index_of k P) in *.
  assert (0 < cols) by lia.
  pose proof (Z.mod_pos_bound s' cols ltac:(lia)) as Hsm.
  pose proof (Z.mod_pos_bound x tw Htw) as Hxm.
  pose proof (Z.mod_pos_bound y th Hth) as Hym.
  assert (Hsd : 0 ≤ s' / cols < rows).
  { split; [apply Z.div_pos; lia|]. apply Z.div_lt_upper_bound; lia. }
  rewrite Hd1 by nia.
  unfold rearranged_px.
  destruct (divmod_tile tw (s' mod cols) (x mod tw) Hxm) as [-> ->].
  destruct (divmod_tile th (s' / cols) (y mod th) Hym) as [-> ->].
  replace (s' / cols * cols + s' mod cols) with s'
    by (pose proof (Z.div_mod s' cols); lia).
  rewrite (list_lookup_total_correct _ _ _ Hl). unfold k.
  destruct (divmod_slot cols (y / th) (x / tw) Hj) as [-> ->].
  rewrite (Z.mod_eq x tw), (Z.mod_eq y th) by lia. f_equal; lia.
Qed.

End orderings.

(** ** The validators: main results *)

Section validator_claims.

Lemma geometry_ok_iff (W H tw th : Z) (ordering : list Z) :
  valid_input (W, H) (tw, th) ordering = Ok true
  ↔ geometry_ok (W, H) (tw, th) ordering.
Proof.
  unfold geometry_ok, py_mod. split.
  - intros (Htw & Hth & Hmw & Hmh & Hlen & Hu)%valid_input_true_inv.
    rewrite (proj2 (Z.eqb_neq tw 0)), (proj2 (Z.eqb_neq th 0)) by done.
    rewrite Hmw, Hmh. repeat split; [done|].
    rewrite <- Hlen. by apply is_unique_perm.
  - destruct (Z.eqb_spec tw 0) as [->|Htw]; [by intros [? _]|].
    destruct (Z.eqb_spec th 0) as [->|Hth]; [by intros (_ & ? & _)|].
    intros ([= Hmw] & [= Hmh] & Hlen & Hp).
    rewrite valid_input_nonzero by done.
    rewrite Hmw, Hmh, Hlen, !Z.eqb_refl. cbn [andb]. f_equal.
    apply is_unique_perm. by rewrite Hlen.
Qed.

Lemma ill_formed_not_ok (W H tw th : Z) (ordering : list Z) :
  ill_formed (W, H) (tw, th) ordering → ¬ geometry_ok (W, H) (tw, th) ordering.
Proof.
  unfold ill_formed, geometry_ok.
  intros Hbad (Hmw & Hmh & Hlen & Hp).
  destruct Hbad as [?|[Hd|[(v & Hv & Hr)|[?|?]]]]; try done.
  - apply Hd. rewrite Hp. apply NoDup_seqZ.
  - apply Hr. rewrite Hp in Hv. apply elem_of_seqZ in Hv. lia.
Qed.

End validator_claims.

(** C4. For every list [L] of integers, [is_unique L] is true exactly when
    sorting [L] yields 0, 1, ..., len(L)-1, that is, when [L] is a
    permutation of that range ([sorted] does sort: its result is ordered and
    a permutation of its argument). The empty list is accepted; a list with
    a negative or too large value is rejected. *)
Theorem is_unique_spec (L : list Z) :
  (Sorted Z.le (sorted L) ∧ sorted L ≡ₚ L) ∧
  (is_unique L = true ↔ sorted L = range (len L)) ∧
  (is_unique L = true ↔ L ≡ₚ range (len L)) ∧
  (L = [] → is_unique L = true) ∧
  (∀ v, v ∈ L → v < 0 ∨ len L ≤ v → is_unique L = false).
Proof.
  split; [|split; [|split; [|split]]].
  - split; [apply (Sorted_merge_sort Z.le)|apply merge_sort_Permutation].
  - apply is_unique_sorted.
  - apply is_unique_perm.
  - by intros ->.
  - intros v Hv Hr. apply not_true_iff_false. intros Hu.
    pose proof (is_unique_in_range L v Hu Hv). lia.
Qed.

Lemma is_unique_spec_witness :
  is_unique [] = true ∧ is_unique [0; 5; 1] = false ∧ is_unique [-1; 0] = false.
Proof.
  split; [|split].
  - apply (is_unique_spec []). reflexivity.
  - apply (is_unique_spec [0; 5; 1]) with (v := 5).
    + apply list_elem_of_In. simpl. tauto.
    + right. vm_compute. discriminate.
  - apply (is_unique_spec [-1; 0]) with (v := -1).
    + apply list_elem_of_In. simpl. tauto.
    + left. lia.
Defined.

(** C3. [valid_input] returns true exactly when the four conditions hold:
    the tile width divides the image width, the tile height divides the image
    height, the ordering has as many entries as there are tiles, and it is a
    permutation of the tile indices. An ordering of another length, with a
    duplicate or with a value out of range, and a tile size that does not
    divide the image, are not accepted; with non-zero tile dimensions the
    answer is false. *)
Theorem valid_input_spec (W H tw th : Z) (ordering : list Z) :
  (valid_input (W, H) (tw, th) ordering = Ok true
   ↔ geometry_ok (W, H) (tw, th) ordering) ∧
  (ill_formed (W, H) (tw, th) ordering →
     valid_input (W, H) (tw, th) ordering ≠ Ok true ∧
     (tw ≠ 0 → th ≠ 0 → valid_input (W, H) (tw, th) ordering = Ok false)).
Proof.
  split; [apply geometry_ok_iff|].
  intros Hbad%ill_formed_not_ok. rewrite <- geometry_ok_iff in Hbad.
  split; [done|]. intros Htw Hth.
  rewrite valid_input_nonzero in Hbad |- * by done.
  destruct (_ && _); [done|done].
Qed.

Lemma valid_input_spec_witness :
  valid_input (4, 4) (2, 2) [0; 0; 1; 2] = Ok false ∧
  valid_input (6, 4) (4, 4) [0] = Ok false ∧
  valid_input (4, 4) (2, 2) [1; 0; 3; 2] = Ok true.
Proof.
  split; [|split].
  - apply (valid_input_spec 4 4 2 2 [0; 0; 1; 2]); [|lia|lia].
    right. left. intros Hd. apply NoDup_cons in Hd as [Hd _].
    apply Hd. apply list_elem_of_In. simpl. tauto.
  - apply (valid_input_spec 6 4 4 4 [0]); [|lia|lia].
    do 3 right. left. vm_compute. discriminate.
  - apply (valid_input_spec 4 4 2 2 [1; 0; 3; 2]).
    repeat split; try reflexivity.
    change (range (4 / 2 * (4 / 2))) with [0; 1; 2; 3].
    etrans; [apply perm_swap|]. do 2 apply perm_skip. apply perm_swap.
Defined.

(** C5. With a tile width or a tile height of 0, [valid_input] does not
    return false: the floor division of line 39 or 40 raises
    [ZeroDivisionError]. *)
Theorem valid_input_degenerate (W H tw th : Z) (ordering : list Z) :
  tw = 0 ∨ th = 0 →
  valid_input (W, H) (tw, th) ordering = Raise ZeroDivisionError.
Proof. apply valid_input_zero. Qed.

Lemma valid_input_degenerate_witness :
  valid_input (4, 4) (0, 2) [0; 1; 2; 3] = Raise ZeroDivisionError.
Proof. apply (valid_input_degenerate 4 4 0 2 [0; 1; 2; 3]). left. reflexivity. Defined.

(** C10. [valid_input] has no positivity check: image 4x4, tile size
    (-2, -2) and ordering [0; 1; 2; 3] are accepted, since with floored
    division 4 % -2 is 0 and (4 // -2) * (4 // -2) is 4; and whatever it
    accepts, it accepts with both tile dimensions negated. *)
Theorem valid_input_negative_tiles :
  valid_input (4, 4) (-2, -2) [0; 1; 2; 3] = Ok true ∧
  py_mod 4 (-2) = Ok 0 ∧ py_floordiv 4 (-2) = Ok (-2) ∧
  (∀ W H tw th ordering,
     valid_input (W, H) (tw, th) ordering = Ok true →
     valid_input (W, H) (- tw, - th) ordering = Ok true).
Proof.
  repeat split; try reflexivity.
  intros W H tw th o (Htw & Hth & Hmw & Hmh & Hlen & Hu)%valid_input_true_inv.
  rewrite valid_input_nonzero by lia.
  rewrite (Z_mod_zero_opp_r _ _ Hmw), (Z_mod_zero_opp_r _ _ Hmh).
  rewrite (Z_div_zero_opp_r _ _ Hmw), (Z_div_zero_opp_r _ _ Hmh).
  rewrite Z.mul_opp_opp, Hlen, !Z.eqb_refl, Hu. done.
Qed.

Lemma valid_input_negative_tiles_witness :
  valid_input (6, 4) (-3, -2) [3; 2; 1; 0] = Ok true.
Proof.
  apply (proj2 (proj2 (proj2 valid_input_negative_tiles)) 6 4 3 2 [3; 2; 1; 0]).
  reflexivity.
Defined.

(** ** The image code: main results *)

Section frame.

Lemma size_eq (a b : img) :
  width a = width b → height a = height b → size a = size b.
Proof. unfold size. by intros -> ->. Qed.

Lemma new_img_frame (src : img) :
  mode (new_img (mode src) (size src)) = mode src ∧
  width (new_img (mode src) (size src)) = width src ∧
  height (new_img (mode src) (size src)) = height src.
Proof. unfold new_img, size. cbn. by rewrite !N2Z.id. Qed.

(** The buffer saved by a call has the mode and the size of the source. *)
Lemma output_frame (src : img) (tile_size : Z * Z) (ordering : list Z) :
  let dst := pasted src (new_img (mode src) (size src)) tile_size ordering in
  mode dst = mode src ∧ width dst = width src ∧ height dst = height src.
Proof.
  destruct tile_size as [tw th]. cbn zeta.
  destruct (pasted_frame src (new_img (mode src) (size src)) tw th ordering)
    as (-> & -> & ->).
  apply new_img_frame.
Qed.

Lemma valid_input_total (W H tw th : Z) (ordering : list Z) :
  tw ≠ 0 → th ≠ 0 → ∃ b, valid_input (W, H) (tw, th) ordering = Ok b.
Proof. intros Htw Hth. rewrite valid_input_nonzero by done. eauto. Qed.

(** A call that returns normally ran on an existing file and a valid input. *)
Lemma rearrange_tiles_ok_inv path tile_size ordering out w w' :
  rearrange_tiles path tile_size ordering out w = (Ok (), w') →
  ∃ src, fs w !! path = Some src ∧
         valid_input (size src) tile_size ordering = Ok true.
Proof.
  intros Hrun. destruct tile_size as [tw th].
  destruct (fs w !! path) as [src|] eqn:Hfs;
    [|by rewrite rearrange_tiles_missing in Hrun].
  exists src. split; [done|].
  destruct (decide (tw = 0 ∨ th = 0)) as [Hz|Hnz].
  { destruct (rearrange_tiles_zero path tw th ordering out w src Hfs Hz)
      as (? & Hr & _). congruence. }
  destruct (valid_input_total (Z.of_N (width src)) (Z.of_N (height src))
              tw th ordering) as [[|] Hv]; [lia|lia|done|].
  destruct (rearrange_tiles_rejects path (tw, th) ordering out w src Hfs Hv)
    as (? & Hr & _). congruence.
Qed.

(** On a valid input the body of the [with] block ends with the pasted
    picture in the destination buffer, and saves that buffer. *)
Lemma rearrange_body_valid_out image out_image src d0 tile_size ordering out w :
  heap w !! image = Some src → heap w !! out_image = Some d0 →
  valid_input (size src) tile_size ordering = Ok true →
  ∃ w', rearrange_body image out_image tile_size ordering out w = (Ok (), w') ∧
        fs w' = <[out := pasted src d0 tile_size ordering]> (fs w) ∧
        heap w' !! out_image = Some (pasted src d0 tile_size ordering).
Proof.
  intros Himg Hout Hv. destruct tile_size as [tw th].
  pose proof Hv as (Htw & Hth & _)%valid_input_true_inv.
  rewrite (rearrange_body_nonzero _ _ src) by done.
  unfold bind at 1, lift at 1. rewrite Hv. cbn [negb].
  destruct (decide (0 < tw ∧ 0 < th)) as [[Hptw Hpth]|Hneg].
  - destruct (phases_run w image out_image src d0 tw th ordering)
      as (tiles & w1 & Ht & Hfs & Hsub & _ & Ho & Hp); [done..|].
    rewrite (bind_ok _ _ _ _ _ Ht), (bind_ok _ _ _ _ _ Ho), (bind_ok _ _ _ _ _ Hp).
    erewrite Image_save_run by (cbn [heap set_heap]; apply lookup_insert_eq).
    eexists. split; [done|]. cbn [fs heap set_fs set_heap].
    split; [by rewrite Hfs|apply lookup_insert_eq].
  - assert (Hg : grid (Z.of_N (height src) / th) (Z.of_N (width src) / tw) = []).
    { apply grid_empty.
      destruct (decide (th < 0)).
      - left. apply div_nonneg_neg; lia.
      - right. apply div_nonneg_neg; lia. }
    assert (Ht : tiles_loop image (tw, th) (Z.of_N (height src) / th)
                   (Z.of_N (width src) / tw) w = (Ok [], w))
      by (by rewrite tiles_loop_grid, Hg).
    assert (Ho : out_tiles_loop [] ordering w = (Ok [], w)) by done.
    assert (Hp : paste_loop out_image [] (tw, th) (Z.of_N (height src) / th)
                   (Z.of_N (width src) / tw) w = (Ok (), w))
      by (by rewrite paste_loop_grid, Hg).
    rewrite (bind_ok _ _ _ _ _ Ht), (bind_ok _ _ _ _ _ Ho), (bind_ok _ _ _ _ _ Hp).
    rewrite (Image_save_run _ _ _ _ Hout).
    eexists. split; [done|]. unfold pasted. cbn [fst snd fs heap set_fs].
    rewrite Hg. cbn [foldl]. by split.
Qed.

(** The two acquisitions of the [with] statement, lines 66 and 67. *)
Lemma acquisitions_run path w src :
  fs w !! path = Some src →
  Image_open path w = (Ok (fresh_ref (heap w)), opened src w) ∧
  (m <- Image_mode (fresh_ref (heap w)) ;;
   sz <- Image_size (fresh_ref (heap w)) ;; Image_new m sz) (opened src w)
  = (Ok (fresh_ref (heap (opened src w))), entered src w).
Proof.
  intros Hfs. split.
  { unfold Image_open. by rewrite Hfs. }
  assert (Ha : heap (opened src w) !! fresh_ref (heap w) = Some src)
    by apply lookup_insert_eq.
  unfold Image_mode, Image_size.
  rewrite (bind_ok _ _ _ _ _ (bind_ok _ _ _ _ _ (load_run _ _ _ Ha))).
  cbn beta.
  rewrite (bind_ok _ _ _ _ _ (bind_ok _ _ _ _ _ (load_run _ _ _ Ha))).
  cbn beta. unfold Image_new.
  replace ((size src).1 <? 0) with false by (symmetry; apply Z.ltb_ge; cbn; lia).
  replace ((size src).2 <? 0) with false by (symmetry; apply Z.ltb_ge; cbn; lia).
  done.
Qed.

End frame.

(** C8. [get_tile] on a live buffer returns the crop of the half-open
    rectangle with left edge tw*i, top edge th*j, right edge tw*(i+1) and
    bottom edge th*(j+1): a new object, distinct from every live buffer, of
    the buffer's mode, whose pixels are those of the rectangle; nothing else
    changes, and a later paste into the source leaves the tile as it is. *)
Theorem get_tile_region (w : world) (image : ref) (im : img) (tw th i j : Z) :
  heap w !! image = Some im →
  get_tile image (tw, th) i j w = Image_crop image (tile_region (tw, th) i j) w ∧
  ∃ t tl,
    get_tile image (tw, th) i j w = (Ok t, set_heap (<[t := tl]> (heap w)) w) ∧
    heap w !! t = None ∧
    mode tl = mode im ∧
    size tl = (Z.max 0 tw, Z.max 0 th) ∧
    (∀ x y, tw * i ≤ x < tw * (i + 1) → th * j ≤ y < th * (j + 1) →
            px tl (x - tw * i) (y - th * j) = getpixel im x y) ∧
    (∀ other pos w2,
       Image_paste image other pos (set_heap (<[t := tl]> (heap w)) w)
         = (Ok (), w2) →
       heap w2 !! t = Some tl).
Proof.
  intros Himg. split.
  { unfold get_tile, tile_region. cbn [fst snd]. do 3 f_equal; lia. }
  exists (fresh_ref (heap w)), (tile_img im (tw, th) i j).
  pose proof (fresh_ref_None (heap w)) as Hfresh.
  split; [by apply get_tile_run|]. split; [done|].
  unfold tile_img. cbn [fst snd crop_img mode]. split; [done|]. split.
  { unfold size. cbn [width height]. f_equal; lia. }
  split.
  { intros x y _ _. cbn [px]. f_equal; lia. }
  intros other pos w2 (d & o & _ & _ & -> & _)%Image_paste_ok_inv.
  cbn [heap set_heap].
  rewrite lookup_insert_ne by congruence. apply lookup_insert_eq.
Qed.

(** C1. A tile size with a zero width or height does not divide the image,
    so the validation cannot succeed and the docstring promises the
    [ValueError]; the call raises [ZeroDivisionError] instead, at the floor
    divisions of lines 72-73, which run before [valid_input] is called. No
    file is written. *)
Theorem rearrange_tiles_degenerate_fault (w : world) (path out : string)
    (tw th : Z) (ordering : list Z) (src : img) :
  fs w !! path = Some src →
  tw = 0 ∨ th = 0 →
  valid_input (size src) (tw, th) ordering ≠ Ok true ∧
  ∃ w',
    rearrange_tiles path (tw, th) ordering out w = (Raise ZeroDivisionError, w') ∧
    (rearrange_tiles path (tw, th) ordering out w).1
      ≠ Raise (ValueError
          "The tile size or ordering are not valid for the given image") ∧
    fs w' = fs w.
Proof.
  intros Hfs Hz. split.
  { unfold size. by rewrite valid_input_zero. }
  destruct (rearrange_tiles_zero path tw th ordering out w src Hfs Hz)
    as (w' & Hrun & Hfs').
  exists w'. split; [done|]. split; [by rewrite Hrun|done].
Qed.

(** C9. Every call of [rearrange_tiles] that returns normally opened the
    source (line 66), allocated its destination buffer by [Image.new] with
    the mode and the size of the source (line 67), ran the body on these two
    buffers, and saved the destination buffer, which still has the mode and
    the size of the source: it is the allocated buffer with the tiles
    pasted. *)
Theorem rearrange_tiles_mode_size (w w' : world) (path out : string)
    (tile_size : Z * Z) (ordering : list Z) :
  rearrange_tiles path tile_size ordering out w = (Ok (), w') →
  ∃ (src d0 dst : img) (image out_image : ref) (wa w0 w3 : world),
    fs w !! path = Some src ∧
    (* line 66 *)
    Image_open path w = (Ok image, wa) ∧
    heap wa !! image = Some src ∧
    (* line 67 *)
    (m <- Image_mode image ;; sz <- Image_size image ;; Image_new m sz) wa
      = (Ok out_image, w0) ∧
    heap w0 !! out_image = Some d0 ∧
    mode d0 = mode src ∧ size d0 = size src ∧
    (* lines 69-97 *)
    rearrange_body image out_image tile_size ordering out w0 = (Ok (), w3) ∧
    heap w3 !! out_image = Some dst ∧
    dst = pasted src d0 tile_size ordering ∧
    mode dst = mode src ∧ size dst = size src ∧
    (* the file saved, and the exit of the [with] block *)
    fs w' !! out = Some dst ∧
    w' = Image_close image (Image_close out_image w3).
Proof.
  intros Hrun.
  destruct (rearrange_tiles_ok_inv _ _ _ _ _ _ Hrun) as (src & Hfs & Hv).
  destruct (acquisitions_run path w src Hfs) as [Hopen Hnew].
  destruct (rearrange_body_valid_out (fresh_ref (heap w))
              (fresh_ref (heap (opened src w))) src
              (new_img (mode src) (size src)) tile_size ordering out
              (entered src w)) as (w3 & Hbody & Hfs3 & Hdst);
    [apply entered_image|apply entered_out_image|done|].
  rewrite (rearrange_tiles_unfold _ _ _ _ _ _ Hfs) in Hrun. cbn zeta in Hrun.
  rewrite Hbody in Hrun. injection Hrun as <-.
  destruct (new_img_frame src) as (Hm0 & Hw0 & Hh0).
  destruct (output_frame src tile_size ordering) as (Hm & Hw & Hh).
  exists src, (new_img (mode src) (size src)),
         (pasted src (new_img (mode src) (size src)) tile_size ordering),
         (fresh_ref (heap w)), (fresh_ref (heap (opened src w))),
         (opened src w), (entered src w), w3.
  split; [done|]. split; [done|]. split; [apply lookup_insert_eq|].
  split; [done|]. split; [apply entered_out_image|].
  split; [done|]. split; [by apply size_eq|].
  split; [done|]. split; [done|]. split; [done|].
  split; [done|]. split; [by apply size_eq|].
  split; [|done].
  cbn [Image_close fs set_heap]. rewrite Hfs3. apply lookup_insert_eq.
Qed.

Lemma identity_range (src : img) (tw th N : Z) :
  valid_input (size src) (tw, th) (range N) = Ok true →
  range N = range (Z.of_N (height src) / th * (Z.of_N (width src) / tw)).
Proof.
  intros (_ & _ & _ & _ & Hlen & _)%valid_input_true_inv.
  unfold len, range in *. rewrite length_seqZ in Hlen.
  destruct (decide (N ≤ 0)).
  - rewrite !seqZ_nil by lia. done.
  - f_equal. lia.
Qed.

(** C6, for positive tile dimensions. Rearranging a valid input with the
    identity ordering 0, 1, ..., N-1 saves a picture with the mode, the size
    and the pixels of the source. *)
Theorem identity_ordering (w : world) (path out : string) (tw th : Z) :
  0 < tw → 0 < th → identity_claim w path (tw, th) out.
Proof.
  intros Htw Hth src N Hfs Hv.
  destruct (rearrange_tiles_valid path (tw, th) (range N) out w src Hfs Hv)
    as (w' & Hrun & Hfs').
  destruct (output_frame src (tw, th) (range N)) as (Hm & Hw & Hh).
  eexists w', _. split; [done|].
  split; [rewrite Hfs'; apply lookup_insert_eq|].
  split; [done|]. split; [by apply size_eq|].
  intros x y Hx Hy. rewrite Hw in Hx. rewrite Hh in Hy.
  rewrite pasted_px by done.
  rewrite (identity_range src tw th N Hv) in Hv |- *.
  by apply rearranged_px_identity.
Qed.

(** C7, for positive tile dimensions. Rearranging a valid input with [P]
    and the saved result with the inverse permutation of [P], with the same
    tile size, saves a picture with the mode, the size and the pixels of the
    original. *)
Theorem inverse_ordering (w : world) (path mid out : string) (tw th : Z)
    (P : list Z) :
  0 < tw → 0 < th → inverse_claim w path (tw, th) P mid out.
Proof.
  intros Htw Hth src Hfs Hv.
  destruct (rearrange_tiles_valid path (tw, th) P mid w src Hfs Hv)
    as (w1 & Hrun1 & Hfs1).
  set (d1 := pasted src (new_img (mode src) (size src)) (tw, th) P) in *.
  destruct (output_frame src (tw, th) P) as (Hm1 & Hw1 & Hh1). fold d1 in Hm1, Hw1, Hh1.
  assert (Hsz : size d1 = size src) by (by apply size_eq).
  assert (Hmid : fs w1 !! mid = Some d1) by (rewrite Hfs1; apply lookup_insert_eq).
  pose proof (inverse_perm_valid src tw th Htw Hth P Hv d1 Hsz) as Hv2.
  destruct (rearrange_tiles_valid mid (tw, th) (inverse_perm P) out w1 d1 Hmid Hv2)
    as (w2 & Hrun2 & Hfs2).
  destruct (output_frame d1 (tw, th) (inverse_perm P)) as (Hm2 & Hw2 & Hh2).
  eexists w1, w2, _. split; [done|]. split; [done|].
  split; [rewrite Hfs2; apply lookup_insert_eq|].
  split; [congruence|]. split; [apply size_eq; congruence|].
  intros x y Hx Hy. rewrite Hw2, Hw1 in Hx. rewrite Hh2, Hh1 in Hy.
  rewrite pasted_px by (done || congruence).
  apply (rearranged_px_inverse src tw th Htw Hth P Hv); [done| |done|done].
  intros x' y' Hx' Hy'. unfold d1. by apply pasted_px.
Qed.

Lemma tile_img_region (src : img) (tile_size : Z * Z) (i j : Z) :
  tile_img src tile_size i j = crop_img src (tile_region tile_size i j).
Proof. unfold tile_img, tile_region, crop_img. f_equal; f_equal; lia. Qed.

(** C2, for positive tile dimensions. On a valid input [rearrange_tiles]
    extracts the source tiles in row-major order, so that
    [tiles[r * tile_cols + c]] is the crop of the tile in row [r], column [c];
    builds the output list with [out_tiles[k] = tiles[ordering[k]]] for
    every slot [k] of the ordering; pastes [out_tiles[k]] at pixel position
    (tile_width * (k mod tile_cols), tile_height * (k div tile_cols)); and
    saves the destination buffer. *)
Theorem rearrange_tiles_trace (w : world) (path out : string) (tw th : Z)
    (ordering : list Z) (src : img) :
  fs w !! path = Some src →
  valid_input (size src) (tw, th) ordering = Ok true →
  0 < tw → 0 < th →
  rearrangement_trace w path (tw, th) ordering out.
Proof.
  intros Hfs Hv Htw Hth.
  set (d0 := new_img (mode src) (size src)).
  destruct (phases_run (entered src w) (fresh_ref (heap w))
              (fresh_ref (heap (opened src w))) src d0 tw th ordering)
    as (tiles & w1 & Ht & Hfs1 & Hsub & Htiles & Ho & Hp);
    [apply entered_image|apply entered_out_image|done..|].
  destruct (rearrange_tiles_valid path (tw, th) ordering out w src Hfs Hv)
    as (w' & Hrun & Hfs').
  destruct (valid_geometry src tw th ordering Hv Htw Hth)
    as (Hr & Hc & HW & HH & Hlen & Hord).
  set (rows := Z.of_N (height src) / th) in *.
  set (cols := Z.of_N (width src) / tw) in *.
  assert (Hlt : len tiles = rows * cols).
  { unfold len. rewrite (Forall2_length _ _ _ Htiles). by apply length_grid. }
  assert (Hslot : ∀ k, 0 ≤ k < len ordering →
            0 ≤ ordering !!! Z.to_nat k < rows * cols ∧
            permuted tiles ordering !! Z.to_nat k
              = Some (tiles !!! Z.to_nat (ordering !!! Z.to_nat k)) ∧
            tiles !! Z.to_nat (ordering !!! Z.to_nat k)
              = Some (tiles !!! Z.to_nat (ordering !!! Z.to_nat k))).
  { intros k Hk.
    assert (Hs : 0 ≤ ordering !!! Z.to_nat k < rows * cols).
    { apply (Forall_lookup_1 (λ v, 0 ≤ v < rows * cols) ordering (Z.to_nat k));
        [done|].
      apply list_lookup_lookup_total_lt. unfold len in Hk. lia. }
    split; [done|]. split.
    - unfold permuted, range. rewrite list_lookup_fmap.
      rewrite lookup_seqZ_lt by lia. cbn. by rewrite Z.add_0_l, Z2Nat.id by lia.
    - apply list_lookup_lookup_total_lt. unfold len in Hlt. lia. }
  unfold rearrangement_trace.
  exists src, tiles, (permuted tiles ordering), w1,
    (set_heap (<[fresh_ref (heap (opened src w)) :=
                   pasted src d0 (tw, th) ordering]> (heap w1)) w1), w'.
  cbn zeta. cbn [fst snd]. fold rows cols.
  split; [done|]. split; [done|]. split.
  { intros r c Hr' Hc'.
    pose proof (slot_bounds rows cols r c Hr' Hc') as Hk.
    pose proof (grid_lookup_lt rows cols _ Hr Hc Hk) as Hg.
    destruct (divmod_slot cols r c Hc') as [Hd Hm]. rewrite Hd, Hm in Hg.
    destruct (Forall2_lookup_r _ _ _ _ _ Htiles Hg) as (t & Hl & Hheap & _).
    exists t. split; [done|]. by rewrite <- tile_img_region. }
  split; [done|]. split.
  { intros k Hk. destruct (Hslot k Hk) as (_ & Hpk & Htk). eauto. }
  split; [done|].
  split; [|split; [done|]].
  2:{ rewrite Hfs'. cbn [heap set_heap]. by rewrite !lookup_insert_eq. }
  exists (pasted src d0 (tw, th) ordering).
  split; [cbn [heap set_heap]; apply lookup_insert_eq|].
  intros k t tl Hk Hpk Hheap dx dy Hdx Hdy.
  destruct (Hslot k Hk) as (Hs & Hpk' & Htk).
  rewrite Hpk' in Hpk. injection Hpk as <-.
  set (s := ordering !!! Z.to_nat k) in *.
  pose proof (grid_lookup_lt rows cols s Hr Hc Hs) as Hg.
  destruct (Forall2_lookup_lr _ _ _ _ _ _ Htiles Htk Hg) as [Hheap' _].
  cbn [fst snd] in Hheap'. rewrite Hheap' in Hheap. injection Hheap as <-.
  unfold tile_img in Hdx, Hdy. cbn [fst snd crop_img width height] in Hdx, Hdy.
  assert (0 < cols) by lia.
  pose proof (Z.mod_pos_bound k cols ltac:(lia)) as Hkm.
  assert (Hkd : 0 ≤ k / cols < rows).
  { split; [apply Z.div_pos; lia|]. apply Z.div_lt_upper_bound; lia. }
  rewrite (pasted_px_slot src d0 tw th ordering Hv Htw Hth) by nia.
  destruct (divmod_tile tw (k mod cols) dx) as [-> ->]; [lia|].
  destruct (divmod_tile th (k / cols) dy) as [-> ->]; [lia|].
  unfold slot_img. cbn [fst snd]. fold cols.
  replace (k / cols * cols + k mod cols) with k
    by (pose proof (Z.div_mod k cols); lia).
  done.
Qed.

(** ** Concrete runs *)

Lemma rearrange_tiles_trace_witness :
  rearrangement_trace world44 "in.png" (2, 2) [1; 0; 3; 2] "out.png".
Proof.
  apply (rearrange_tiles_trace world44 "in.png" "out.png" 2 2 [1; 0; 3; 2] img44).
  - reflexivity.
  - reflexivity.
  - lia.
  - lia.
Defined.

(** C2 as stated fails for negative tile dimensions: image 4x4, tile size
    (-2, -2) and ordering [0; 1; 2; 3] pass the validation, but no tile is
    extracted and the output list stays empty, so slot 0 holds nothing. *)
Lemma rearrangement_trace_negative_tiles :
  valid_input (size img44) (-2, -2) [0; 1; 2; 3] = Ok true ∧
  ¬ rearrangement_trace world44 "in.png" (-2, -2) [0; 1; 2; 3] "out.png".
Proof.
  split; [reflexivity|].
  intros (src & tiles & out_tiles & w1 & w2 & w' & Hfs & Ht & _ & Ho & Hk & _).
  cbn zeta in Ht, Hk.
  assert (Some img44 = Some src) as [= <-] by exact Hfs.
  rewrite tiles_loop_grid, grid_empty in Ht by (left; vm_compute; discriminate).
  injection Ht as <- <-.
  assert (Ho' : out_tiles_loop [] [0; 1; 2; 3] (entered img44 world44)
                = (Ok [], entered img44 world44)) by reflexivity.
  rewrite Ho' in Ho. injection Ho as <-.
  destruct (Hk 0) as (t & Hl & _); [vm_compute; split; congruence|].
  discriminate Hl.
Qed.

Lemma identity_ordering_witness :
  identity_claim world44 "in.png" (2, 2) "out.png".
Proof. apply (identity_ordering world44 "in.png" "out.png" 2 2); lia. Defined.

(** C6 as stated fails for negative tile dimensions: image 4x4 with tile
    size (-2, -2) and the identity ordering is valid, and the saved picture
    is blank. *)
Lemma identity_negative_tiles :
  ¬ identity_claim world44 "in.png" (-2, -2) "out.png".
Proof.
  intros Hc.
  destruct (Hc img44 4) as (w' & dst & Hrun & Hout & _ & _ & Hpx);
    [reflexivity|reflexivity|].
  destruct (rearrange_tiles_valid "in.png" (-2, -2) (range 4) "out.png"
              world44 img44) as (w'' & Hrun' & Hfs'); [reflexivity..|].
  assert (w'' = w') as -> by congruence.
  rewrite Hfs', lookup_insert_eq in Hout. injection Hout as <-.
  specialize (Hpx 1 0). vm_compute in Hpx.
  assert (0 = 1) by (apply Hpx; split; congruence). discriminate.
Qed.

Lemma inverse_ordering_witness :
  inverse_claim world44 "in.png" (2, 2) [1; 2; 3; 0] "mid.png" "out.png".
Proof.
  apply (inverse_ordering world44 "in.png" "mid.png" "out.png" 2 2 [1; 2; 3; 0]);
    lia.
Defined.

(** C7 as stated fails for negative tile dimensions: the same input gives a
    blank picture after the first call, and after the second. *)
Lemma inverse_negative_tiles :
  ¬ inverse_claim world44 "in.png" (-2, -2) [0; 1; 2; 3] "mid.png" "out.png".
Proof.
  intros Hc.
  destruct (Hc img44) as (w1 & w2 & dst & Hrun1 & Hrun2 & Hout & _ & _ & Hpx);
    [reflexivity|reflexivity|].
  destruct (rearrange_tiles_valid "in.png" (-2, -2) [0; 1; 2; 3] "mid.png"
              world44 img44) as (w1' & Hrun1' & Hfs1); [reflexivity..|].
  assert (w1' = w1) as -> by congruence.
  set (d1 := pasted img44 (new_img (mode img44) (size img44)) (-2, -2)
                    [0; 1; 2; 3]) in *.
  destruct (rearrange_tiles_valid "mid.png" (-2, -2)
              (inverse_perm [0; 1; 2; 3]) "out.png" w1 d1)
    as (w2' & Hrun2' & Hfs2);
    [rewrite Hfs1; apply lookup_insert_eq|reflexivity|].
  assert (w2' = w2) as -> by congruence.
  rewrite Hfs2, lookup_insert_eq in Hout. injection Hout as <-.
  specialize (Hpx 1 0). vm_compute in Hpx.
  assert (0 = 1) by (apply Hpx; split; congruence). discriminate.
Qed.

Lemma get_tile_region_witness :
  let w := {| fs := ∅; heap := {[ 0%nat := img44 ]} |} in
  ∃ t tl,
    get_tile 0%nat (2, 2) 1 0 w = (Ok t, set_heap (<[t := tl]> (heap w)) w) ∧
    heap w !! t = None ∧
    mode tl = mode img44 ∧
    size tl = (2, 2) ∧
    (∀ x y, 2 ≤ x < 4 → 0 ≤ y < 2 → px tl (x - 2) y = getpixel img44 x y).
Proof.
  cbn zeta.
  destruct (get_tile_region {| fs := ∅; heap := {[ 0%nat := img44 ]} |}
              0%nat img44 2 2 1 0)
    as (_ & t & tl & Hrun & Hfresh & Hm & Hs & Hpx & _); [reflexivity|].
  exists t, tl. repeat split; try done.
  intros x y Hx Hy. rewrite <- (Hpx x y) by lia. f_equal; lia.
Defined.

Lemma rearrange_tiles_degenerate_fault_witness :
  ∃ w',
    rearrange_tiles "in.png" (0, 2) [0; 1; 2; 3] "out.png" world44
      = (Raise ZeroDivisionError, w') ∧
    fs w' = fs world44.
Proof.
  destruct (rearrange_tiles_degenerate_fault world44 "in.png" "out.png" 0 2
              [0; 1; 2; 3] img44) as (_ & w' & Hrun & _ & Hfs);
    [reflexivity|left; reflexivity|].
  exists w'. split; [exact Hrun|exact Hfs].
Defined.

Lemma rearrange_tiles_mode_size_witness :
  ∃ dst,
    fs (rearrange_tiles "in.png" (2, 2) [1; 0; 3; 2] "out.png" world44).2
      !! "out.png" = Some dst ∧
    mode dst = "L" ∧ size dst = (4, 4).
Proof.
  destruct (rearrange_tiles_mode_size world44
              (rearrange_tiles "in.png" (2, 2) [1; 0; 3; 2] "out.png" world44).2
              "in.png" "out.png" (2, 2) [1; 0; 3; 2])
    as (src & d0 & dst & image & out_image & wa & w0 & w3 & Hfs & _ & _ & _ &
        _ & _ & _ & _ & _ & _ & Hm & Hs & Hout & _).
  { vm_compute. reflexivity. }
  assert (Some img44 = Some src) as [= <-] by exact Hfs.
  exists dst. auto.
Defined.

(** ** Tests on concrete inputs *)

Example is_unique_ex1 : is_unique [2; 0; 1] = true.
Proof. reflexivity. Qed.

Example is_unique_ex2 : is_unique [0; 0; 1; 2] = false.
Proof. reflexivity. Qed.

Example valid_input_ex1 : valid_input (4, 4) (2, 2) [1; 0; 3; 2] = Ok true.
Proof. reflexivity. Qed.

Example valid_input_ex2 : valid_input (6, 4) (4, 4) [0] = Ok false.
Proof. reflexivity. Qed.

Example valid_input_ex3 : valid_input (4, 4) (0, 2) [0; 1; 2; 3] = Raise ZeroDivisionError.
Proof. reflexivity. Qed.

(** The scenario of the 4x4 picture with 2x2 tiles and ordering
    [1; 0; 3; 2]: slot 0 holds source tile 1, slot 1 source tile 0, and the
    columns of tiles are swapped in the saved picture. *)
Example swap_columns_tiles :
  let w0 := entered img44 world44 in
  (tiles_loop 0%nat (2, 2) 2 2 w0).1 = Ok [2; 3; 4; 5]%nat ∧
  (out_tiles_loop [2; 3; 4; 5]%nat [1; 0; 3; 2] w0).1 = Ok [3; 2; 5; 4]%nat.
Proof. vm_compute. split; reflexivity. Qed.

Example swap_columns_picture :
  let r := rearrange_tiles "in.png" (2, 2) [1; 0; 3; 2] "out.png" world44 in
  r.1 = Ok () ∧
  pixel_rows img44
    = [[0; 1; 2; 3]; [4; 5; 6; 7]; [8; 9; 10; 11]; [12; 13; 14; 15]] ∧
  pixel_rows <$> (fs r.2 !! "out.png")
    = Some [[2; 3; 0; 1]; [6; 7; 4; 5]; [10; 11; 8; 9]; [14; 15; 12; 13]].
Proof. vm_compute. repeat split; reflexivity. Qed.

(** A tile size with a zero dimension: the call raises the arithmetic fault
    of line 72 or 73, not the [ValueError] of the validation. *)
Example zero_tile_call :
  (rearrange_tiles "in.png" (0, 2) [0; 1; 2; 3] "out.png" world44).1
  = Raise ZeroDivisionError.
Proof. vm_compute. reflexivity. Qed.

(** Negative tile dimensions: the call returns normally and saves a blank
    picture. *)
Example negative_tile_call :
  let r := rearrange_tiles "in.png" (-2, -2) [0; 1; 2; 3] "out.png" world44 in
  r.1 = Ok () ∧
  pixel_rows <$> (fs r.2 !! "out.png")
    = Some [[0; 0; 0; 0]; [0; 0; 0; 0]; [0; 0; 0; 0]; [0; 0; 0; 0]].
Proof. vm_compute. split; reflexivity. Qed.

(** ** Further properties of the validators *)

Lemma sorted_Permutation (l1 l2 : list Z) : l1 ≡ₚ l2 → sorted l1 = sorted l2.
Proof.
  intros Hp. unfold sorted. apply (Sorted_unique Z.le).
  - apply (Sorted_merge_sort Z.le).
  - apply (Sorted_merge_sort Z.le).
  - by rewrite !merge_sort_Permutation.
Qed.

(** X1. [is_unique] is what its docstring says: true exactly when the list
    has no duplicate and every element lies in [0, len). *)
Theorem is_unique_nodup_range (L : list Z) :
  is_unique L = true ↔ NoDup L ∧ ∀ v, v ∈ L → 0 ≤ v < len L.
Proof.
  rewrite is_unique_perm. split.
  - intros Hp. split.
    + apply (NoDup_Permutation_proper _ _ Hp), NoDup_seqZ.
    + intros v Hv.
      assert (Hr : v ∈ range (len L))
        by (eapply elem_of_Permutation_proper; [symmetry; exact Hp|done]).
      apply elem_of_seqZ in Hr. lia.
  - intros [Hnd Hr]. apply submseteq_length_Permutation.
    + apply NoDup_submseteq; [done|].
      intros v Hv. apply elem_of_seqZ. specialize (Hr v Hv). lia.
    + unfold range, len. rewrite length_seqZ. lia.
Qed.

(** X2. The answers of [is_unique] and of [valid_input] do not depend on the
    order of the list: permuting it changes neither. *)
Theorem validators_order_independent (L L' : list Z) (image_size tile_size : Z * Z) :
  L ≡ₚ L' →
  is_unique L = is_unique L' ∧
  valid_input image_size tile_size L = valid_input image_size tile_size L'.
Proof.
  intros Hp.
  assert (Hu : is_unique L = is_unique L').
  { unfold is_unique. by rewrite (sorted_Permutation L L' Hp). }
  split; [done|].
  destruct image_size as [W H], tile_size as [tw th].
  unfold valid_input, len. by rewrite (Permutation_length Hp), Hu.
Qed.

Lemma validators_order_independent_witness :
  is_unique [2; 0; 1] = is_unique [0; 2; 1] ∧
  valid_input (6, 2) (2, 2) [2; 0; 1] = valid_input (6, 2) (2, 2) [0; 2; 1].
Proof.
  apply (validators_order_independent [2; 0; 1] [0; 2; 1] (6, 2) (2, 2)).
  apply perm_swap.
Defined.

(** X3. For an image with positive width and height, a tile size with one
    negative and one positive dimension is always answered false. *)
Theorem valid_input_mixed_signs (W H tw th : Z) (ordering : list Z) :
  0 < W → 0 < H → tw * th < 0 →
  valid_input (W, H) (tw, th) ordering = Ok false.
Proof.
  intros HW HH Hs.
  assert (tw ≠ 0 ∧ th ≠ 0) as [Htw Hth] by nia.
  rewrite valid_input_nonzero by done. f_equal.
  destruct (Z.eqb_spec (W mod tw) 0) as [Hmw|]; [|done].
  destruct (Z.eqb_spec (H mod th) 0) as [Hmh|]; [|done].
  cbn [andb].
  destruct (Z.eqb_spec (len ordering) (H / th * (W / tw))) as [Hlen|]; [|done].
  exfalso.
  pose proof (Z.div_mod W tw Htw) as HdW.
  pose proof (Z.div_mod H th Hth) as HdH.
  assert (0 ≤ len ordering) by (unfold len; lia).
  assert (W * H = (tw * th) * (H / th * (W / tw))) by (rewrite Hmw, Hmh in *; nia).
  nia.
Qed.

Lemma valid_input_mixed_signs_witness :
  valid_input (4, 4) (-2, 2) [0; 1; 2; 3] = Ok false.
Proof. apply (valid_input_mixed_signs 4 4 (-2) 2 [0; 1; 2; 3]); lia. Defined.

(** X4. Whatever [valid_input] accepts, the tiles account for the whole
    picture: the image area is the tile area times the length of the
    ordering. *)
Theorem valid_input_area (W H tw th : Z) (ordering : list Z) :
  valid_input (W, H) (tw, th) ordering = Ok true →
  W * H = (tw * th) * len ordering.
Proof.
  intros (Htw & Hth & Hmw & Hmh & Hlen & _)%valid_input_true_inv.
  pose proof (Z.div_mod W tw Htw) as HdW.
  pose proof (Z.div_mod H th Hth) as HdH.
  rewrite Hlen. rewrite Hmw in HdW. rewrite Hmh in HdH. nia.
Qed.

Lemma valid_input_area_witness : 6 * 4 = (3 * 2) * len [3; 2; 1; 0].
Proof. apply (valid_input_area 6 4 3 2 [3; 2; 1; 0]). reflexivity. Defined.

(** ** Further properties of the call: what it leaves behind *)

Section leaves_behind.

(** Releasing the two buffers of the [with] block right after they were
    acquired gives back the state before the call. *)
Lemma closed_entered (src : img) (w : world) :
  Image_close (fresh_ref (heap w))
    (Image_close (fresh_ref (heap (opened src w))) (entered src w)) = w.
Proof.
  destruct w as [f h]. unfold Image_close, entered, opened, set_heap.
  cbn [heap fs]. f_equal.
  rewrite delete_insert_id by apply fresh_ref_None.
  by rewrite delete_insert_id by apply fresh_ref_None.
Qed.

(** On a valid input the body of the [with] block keeps every object other
    than the destination buffer. *)
Lemma rearrange_body_valid_heap image out_image src d0 tile_size ordering out w :
  heap w !! image = Some src → heap w !! out_image = Some d0 →
  valid_input (size src) tile_size ordering = Ok true →
  ∃ w', rearrange_body image out_image tile_size ordering out w = (Ok (), w') ∧
        delete out_image (heap w) ⊆ delete out_image (heap w').
Proof.
  intros Himg Hout Hv. destruct tile_size as [tw th].
  pose proof Hv as (Htw & Hth & _)%valid_input_true_inv.
  rewrite (rearrange_body_nonzero _ _ src) by done.
  unfold bind at 1, lift at 1. rewrite Hv. cbn [negb].
  destruct (decide (0 < tw ∧ 0 < th)) as [[Hptw Hpth]|Hneg].
  - destruct (phases_run w image out_image src d0 tw th ordering)
      as (tiles & w1 & Ht & Hfs & Hsub & _ & Ho & Hp); [done..|].
    rewrite (bind_ok _ _ _ _ _ Ht), (bind_ok _ _ _ _ _ Ho), (bind_ok _ _ _ _ _ Hp).
    erewrite Image_save_run by (cbn [heap set_heap]; apply lookup_insert_eq).
    eexists. split; [done|]. cbn [heap set_fs set_heap].
    rewrite delete_insert_eq. by apply delete_mono.
  - assert (Hg : grid (Z.of_N (height src) / th) (Z.of_N (width src) / tw) = []).
    { apply grid_empty.
      destruct (decide (th < 0)).
      - left. apply div_nonneg_neg; lia.
      - right. apply div_nonneg_neg; lia. }
    assert (Ht : tiles_loop image (tw, th) (Z.of_N (height src) / th)
                   (Z.of_N (width src) / tw) w = (Ok [], w))
      by (by rewrite tiles_loop_grid, Hg).
    assert (Ho : out_tiles_loop [] ordering w = (Ok [], w)) by done.
    assert (Hp : paste_loop out_image [] (tw, th) (Z.of_N (height src) / th)
                   (Z.of_N (width src) / tw) w = (Ok (), w))
      by (by rewrite paste_loop_grid, Hg).
    rewrite (bind_ok _ _ _ _ _ Ht), (bind_ok _ _ _ _ _ Ho), (bind_ok _ _ _ _ _ Hp).
    rewrite (Image_save_run _ _ _ _ Hout).
    eexists. split; [done|]. done.
Qed.

End leaves_behind.

(** X5. When [valid_input] answers false, the call raises the [ValueError]
    and leaves the state exactly as it was: no file is written and both
    buffers of the [with] block are released. *)
Theorem rearrange_tiles_invalid_restores (w : world) (path out : string)
    (tile_size : Z * Z) (ordering : list Z) (src : img) :
  fs w !! path = Some src →
  valid_input (size src) tile_size ordering = Ok false →
  rearrange_tiles path tile_size ordering out w
  = (Raise (ValueError
       "The tile size or ordering are not valid for the given image"), w).
Proof.
  intros Hfs Hv. rewrite (rearrange_tiles_unfold _ _ _ _ _ _ Hfs). cbn zeta.
  rewrite (rearrange_body_invalid _ _ src) by (apply entered_image || done).
  by rewrite closed_entered.
Qed.

Lemma rearrange_tiles_invalid_restores_witness :
  rearrange_tiles "in.png" (2, 2) [0; 0; 1; 2] "out.png" world44
  = (Raise (ValueError
       "The tile size or ordering are not valid for the given image"), world44).
Proof.
  apply (rearrange_tiles_invalid_restores world44 "in.png" "out.png" (2, 2)
           [0; 0; 1; 2] img44); reflexivity.
Defined.

(** X6. With a tile width or height of 0 the call raises
    [ZeroDivisionError] at the floor divisions of lines 72-73, before the
    validation, whatever the ordering; the state is left exactly as it was. *)
Theorem rearrange_tiles_zero_division (w : world) (path out : string)
    (tw th : Z) (ordering : list Z) (src : img) :
  fs w !! path = Some src → tw = 0 ∨ th = 0 →
  rearrange_tiles path (tw, th) ordering out w = (Raise ZeroDivisionError, w).
Proof.
  intros Hfs Hz. rewrite (rearrange_tiles_unfold _ _ _ _ _ _ Hfs). cbn zeta.
  rewrite (rearrange_body_zero _ _ src) by (apply entered_image || done).
  by rewrite closed_entered.
Qed.

Lemma rearrange_tiles_zero_division_witness :
  rearrange_tiles "in.png" (2, 0) [0; 1] "out.png" world44
  = (Raise ZeroDivisionError, world44).
Proof.
  apply (rearrange_tiles_zero_division world44 "in.png" "out.png" 2 0 [0; 1]
           img44); [reflexivity|right; reflexivity].
Defined.

(** X7. A call that returns normally changes no file other than [out_path],
    keeps every image object that was live before it untouched, and has
    released its source and destination buffers. *)
Theorem rearrange_tiles_success_frame (w w' : world) (path out : string)
    (tile_size : Z * Z) (ordering : list Z) :
  rearrange_tiles path tile_size ordering out w = (Ok (), w') →
  ∃ src,
    fs w !! path = Some src ∧
    (∀ p, p ≠ out → fs w' !! p = fs w !! p) ∧
    heap w ⊆ heap w' ∧
    heap w' !! fresh_ref (heap w) = None ∧
    heap w' !! fresh_ref (heap (opened src w)) = None.
Proof.
  intros Hrun.
  destruct (rearrange_tiles_ok_inv _ _ _ _ _ _ Hrun) as (src & Hfs & Hv).
  exists src. split; [done|].
  destruct (rearrange_tiles_valid path tile_size ordering out w src Hfs Hv)
    as (w'' & Hrun' & Hfs').
  assert (w'' = w') as -> by congruence. clear Hrun'.
  split; [intros p Hp; by rewrite Hfs', lookup_insert_ne|].
  rewrite (rearrange_tiles_unfold _ _ _ _ _ _ Hfs) in Hrun. cbn zeta in Hrun.
  destruct (rearrange_body_valid_heap (fresh_ref (heap w))
              (fresh_ref (heap (opened src w))) src
              (new_img (mode src) (size src)) tile_size ordering out
              (entered src w)) as (w3 & Hbody & Hsub);
    [apply entered_image|apply entered_out_image|done|].
  rewrite Hbody in Hrun. injection Hrun as <-.
  cbn [Image_close heap set_heap]. split; [|split].
  - pose proof (closed_entered src w) as Hc.
    apply (f_equal heap) in Hc. cbn [Image_close heap set_heap] in Hc.
    rewrite <- Hc at 1. by apply delete_mono.
  - apply lookup_delete_eq.
  - apply lookup_delete_None. right. apply lookup_delete_eq.
Qed.

Lemma rearrange_tiles_success_frame_witness :
  fs (rearrange_tiles "in.png" (2, 2) [1; 0; 3; 2] "out.png" world44).2
    !! "in.png" = Some img44.
Proof.
  destruct (rearrange_tiles_success_frame world44
              (rearrange_tiles "in.png" (2, 2) [1; 0; 3; 2] "out.png" world44).2
              "in.png" "out.png" (2, 2) [1; 0; 3; 2])
    as (src & Hfs & Hframe & _).
  { vm_compute. reflexivity. }
  rewrite Hframe by discriminate. reflexivity.
Defined.



(** ** Further properties of the call: the picture it saves *)

Section saved_picture.

Context (src d0 : img) (tw th : Z) (ordering : list Z).
Hypothesis Hvalid : valid_input (size src) (tw, th) ordering = Ok true.
Hypothesis Htw : 0 < tw.
Hypothesis Hth : 0 < th.

Local Abbreviation rows := (Z.of_N (height src) / th).
Local Abbreviation cols := (Z.of_N (width src) / tw).

Lemma tile_pixel_in_bounds (r c dx dy : Z) :
  0 ≤ r < rows → 0 ≤ c < cols → 0 ≤ dx < tw → 0 ≤ dy < th →
  0 ≤ tw * c + dx < Z.of_N (width src) ∧ 0 ≤ th * r + dy < Z.of_N (height src).
Proof.
  intros Hr Hc Hdx Hdy.
  destruct (valid_geometry src tw th ordering Hvalid Htw Hth)
    as (_ & _ & HW & HH & _).
  rewrite HW, HH. nia.
Qed.

(** The pasted picture, tile by tile. *)
Lemma pasted_px_tile (r c dx dy : Z) :
  0 ≤ r < rows → 0 ≤ c < cols → 0 ≤ dx < tw → 0 ≤ dy < th →
  px (pasted src d0 (tw, th) ordering) (tw * c + dx) (th * r + dy)
  = px src (tw * (ordering !!! Z.to_nat (r * cols + c) mod cols) + dx)
           (th * (ordering !!! Z.to_nat (r * cols + c) / cols) + dy).
Proof.
  intros Hr Hc Hdx Hdy.
  destruct (tile_pixel_in_bounds r c dx dy) as [Hx Hy]; [done..|].
  rewrite (pasted_px src d0 tw th ordering Hvalid Htw Hth) by done.
  unfold rearranged_px.
  destruct (divmod_tile tw c dx Hdx) as [-> ->].
  destruct (divmod_tile th r dy Hdy) as [-> ->]. done.
Qed.

End saved_picture.

(** X9. On a valid input with positive tile dimensions the saved picture has
    the mode and size of the source, and its tile in row [r], column [c] is,
    pixel for pixel, the source tile that the ordering names at position
    [r * tile_cols + c]. *)
Theorem rearrange_tiles_pixels (w : world) (path out : string) (tw th : Z)
    (ordering : list Z) (src : img) :
  fs w !! path = Some src →
  valid_input (size src) (tw, th) ordering = Ok true →
  0 < tw → 0 < th →
  ∃ w' dst,
    rearrange_tiles path (tw, th) ordering out w = (Ok (), w') ∧
    fs w' !! out = Some dst ∧
    mode dst = mode src ∧ size dst = size src ∧
    ∀ r c dx dy,
      0 ≤ r < Z.of_N (height src) / th → 0 ≤ c < Z.of_N (width src) / tw →
      0 ≤ dx < tw → 0 ≤ dy < th →
      let tile_cols := Z.of_N (width src) / tw in
      let s := ordering !!! Z.to_nat (r * tile_cols + c) in
      px dst (tw * c + dx) (th * r + dy)
      = px src (tw * (s mod tile_cols) + dx) (th * (s / tile_cols) + dy).
Proof.
  intros Hfs Hv Htw Hth.
  destruct (rearrange_tiles_valid path (tw, th) ordering out w src Hfs Hv)
    as (w' & Hrun & Hfs').
  destruct (output_frame src (tw, th) ordering) as (Hm & Hw & Hh).
  eexists w', _. split; [done|].
  split; [rewrite Hfs'; apply lookup_insert_eq|].
  split; [done|]. split; [by apply size_eq|].
  intros r c dx dy Hr Hc Hdx Hdy. cbn zeta. by apply pasted_px_tile.
Qed.

Lemma rearrange_tiles_pixels_witness :
  ∃ w' dst,
    rearrange_tiles "in.png" (2, 2) [1; 0; 3; 2] "out.png" world44 = (Ok (), w') ∧
    fs w' !! "out.png" = Some dst ∧
    px dst 1 3 = px img44 3 3.
Proof.
  destruct (rearrange_tiles_pixels world44 "in.png" "out.png" 2 2 [1; 0; 3; 2]
              img44) as (w' & dst & Hrun & Hout & _ & _ & Hpx);
    [reflexivity|reflexivity|lia|lia|].
  exists w', dst. split; [done|]. split; [done|].
  apply (Hpx 1 0 1 1); vm_compute; split; congruence.
Defined.

(** X10. On a valid input with positive tile dimensions no tile is lost or
    duplicated: every source tile [s] sits in exactly one slot [k] of the
    ordering, and the saved picture shows it, pixel for pixel, at the
    position of that slot. *)
Theorem rearrange_tiles_keeps_every_tile (w : world) (path out : string)
    (tw th : Z) (ordering : list Z) (src : img) :
  fs w !! path = Some src →
  valid_input (size src) (tw, th) ordering = Ok true →
  0 < tw → 0 < th →
  ∃ w' dst,
    rearrange_tiles path (tw, th) ordering out w = (Ok (), w') ∧
    fs w' !! out = Some dst ∧
    let tile_rows := Z.of_N (height src) / th in
    let tile_cols := Z.of_N (width src) / tw in
    ∀ s, 0 ≤ s < tile_rows * tile_cols →
      ∃ k, 0 ≤ k < tile_rows * tile_cols ∧
           ordering !!! Z.to_nat k = s ∧
           (∀ k', 0 ≤ k' < tile_rows * tile_cols →
                  ordering !!! Z.to_nat k' = s → k' = k) ∧
           ∀ dx dy, 0 ≤ dx < tw → 0 ≤ dy < th →
             px dst (tw * (k mod tile_cols) + dx) (th * (k / tile_cols) + dy)
             = px src (tw * (s mod tile_cols) + dx) (th * (s / tile_cols) + dy).
Proof.
  intros Hfs Hv Htw Hth.
  destruct (rearrange_tiles_valid path (tw, th) ordering out w src Hfs Hv)
    as (w' & Hrun & Hfs').
  eexists w', _. split; [done|].
  split; [rewrite Hfs'; apply lookup_insert_eq|].
  cbn zeta. intros s Hs.
  pose proof (valid_len src tw th ordering Hv) as Hlen.
  pose proof (valid_Permutation src tw th ordering Hv) as Hperm.
  destruct (valid_geometry src tw th ordering Hv Htw Hth)
    as (Hr & Hc & _).
  set (rows := Z.of_N (height src) / th) in *.
  set (cols := Z.of_N (width src) / tw) in *.
  destruct (index_of_elem s ordering) as [Hk Hl].
  { by apply (perm_elem ordering (rows * cols) Hperm). }
  rewrite Hlen in Hk. set (k := index_of s ordering) in *.
  exists k. split; [done|].
  split; [by apply list_lookup_total_correct|]. split.
  - intros k' Hk' Hs'.
    assert (Hl' : ordering !! Z.to_nat k' = Some s).
    { rewrite <- Hs'. apply list_lookup_lookup_total_lt. unfold len in Hlen. lia. }
    assert (HND : NoDup ordering)
      by (apply (NoDup_Permutation_proper _ _ Hperm), NoDup_seqZ).
    pose proof (NoDup_lookup ordering _ _ _ HND Hl Hl'). lia.
  - intros dx dy Hdx Hdy.
    assert (0 < cols) by lia.
    pose proof (Z.mod_pos_bound k cols ltac:(lia)) as Hkm.
    assert (Hkd : 0 ≤ k / cols < rows).
    { split; [apply Z.div_pos; lia|]. apply Z.div_lt_upper_bound; lia. }
    rewrite (pasted_px_tile src _ tw th ordering Hv Htw Hth) by done.
    fold cols.
    replace (k / cols * cols + k mod cols) with k
      by (pose proof (Z.div_mod k cols); lia).
    by rewrite (list_lookup_total_correct _ _ _ Hl).
Qed.

Lemma rearrange_tiles_keeps_every_tile_witness :
  ∃ w' dst,
    rearrange_tiles "in.png" (2, 2) [1; 2; 3; 0] "out.png" world44 = (Ok (), w') ∧
    fs w' !! "out.png" = Some dst ∧
    ∃ k, 0 ≤ k < 4 ∧ [1; 2; 3; 0] !!! Z.to_nat k = 0.
Proof.
  destruct (rearrange_tiles_keeps_every_tile world44 "in.png" "out.png" 2 2
              [1; 2; 3; 0] img44) as (w' & dst & Hrun & Hout & Hall);
    [reflexivity|reflexivity|lia|lia|].
  exists w', dst. split; [done|]. split; [done|].
  destruct (Hall 0) as (k & Hk & Hs & _); [vm_compute; split; congruence|].
  exists k. split; [exact Hk|exact Hs].
Defined.

(** ** Further properties of the call: two calls in a row *)

Section composition.

Context (src : img) (tw th : Z).
Hypothesis Htw : 0 < tw.
Hypothesis Hth : 0 < th.
Context (P Q : list Z).
Hypothesis HvP : valid_input (size src) (tw, th) P = Ok true.
Hypothesis HvQ : valid_input (size src) (tw, th) Q = Ok true.

Local Abbreviation rows := (Z.of_N (height src) / th).
Local Abbreviation cols := (Z.of_N (width src) / tw).

Lemma compose_ordering_lookup (k : Z) :
  0 ≤ k < rows * cols →
  compose_ordering P Q !!! Z.to_nat k = P !!! Z.to_nat (Q !!! Z.to_nat k).
Proof.
  intros Hk. unfold compose_ordering.
  pose proof (valid_len src tw th Q HvQ) as Hlen. unfold len in Hlen.
  by rewrite (list_lookup_total_fmap _ Q) by lia.
Qed.

Lemma compose_ordering_Permutation : compose_ordering P Q ≡ₚ range (rows * cols).
Proof.
  pose proof (valid_Permutation src tw th P HvP) as HpP.
  pose proof (valid_Permutation src tw th Q HvQ) as HpQ.
  pose proof (valid_len src tw th P HvP) as Hlen. unfold len in Hlen.
  unfold compose_ordering. rewrite HpQ.
  replace ((λ k, P !!! Z.to_nat k) <$> range (rows * cols)) with P; [done|].
  apply list_eq. intros i. unfold range. rewrite list_lookup_fmap.
  destruct (decide (Z.of_nat i < rows * cols)).
  - rewrite lookup_seqZ_lt by done. cbn. rewrite Z.add_0_l, Nat2Z.id.
    apply list_lookup_lookup_total_lt. lia.
  - rewrite lookup_seqZ_ge by lia. cbn. apply lookup_ge_None. lia.
Qed.

Lemma compose_ordering_valid :
  valid_input (size src) (tw, th) (compose_ordering P Q) = Ok true.
Proof.
  pose proof HvQ as (_ & _ & Hmw & Hmh & Hlen & _)%valid_input_true_inv.
  unfold size. rewrite valid_input_nonzero by lia.
  rewrite Hmw, Hmh. cbn [Z.eqb andb]. f_equal.
  assert (Hl : len (compose_ordering P Q) = rows * cols).
  { unfold compose_ordering, len. rewrite length_fmap. exact Hlen. }
  rewrite Hl, Z.eqb_refl. cbn [andb].
  apply is_unique_perm. rewrite Hl. apply compose_ordering_Permutation.
Qed.

Lemma rearranged_px_compose (d1 : img) x y :
  width d1 = width src →
  (∀ x y, 0 ≤ x < Z.of_N (width src) → 0 ≤ y < Z.of_N (height src) →
          px d1 x y = rearranged_px src (tw, th) P x y) →
  0 ≤ x < Z.of_N (width src) → 0 ≤ y < Z.of_N (height src) →
  rearranged_px d1 (tw, th) Q x y
  = rearranged_px src (tw, th) (compose_ordering P Q) x y.
Proof.
  intros Hw Hd1 Hx Hy.
  destruct (valid_geometry src tw th Q HvQ Htw Hth)
    as (Hr & Hc & HW & HH & Hlen & Hord).
  destruct (pixel_slot src tw th Q HvQ Htw Hth x y Hx Hy) as (Hi & Hj & Hq).
  pose proof (slot_bounds rows cols _ _ Hi Hj) as Hk.
  unfold rearranged_px. rewrite Hw.
  rewrite compose_ordering_lookup by done.
  set (q := Q !!! Z.to_nat (y / th * cols + x / tw)) in *.
  assert (0 < cols) by lia.
  pose proof (Z.mod_pos_bound q cols ltac:(lia)) as Hqm.
  pose proof (Z.mod_pos_bound x tw Htw) as Hxm.
  pose proof (Z.mod_pos_bound y th Hth) as Hym.
  assert (Hqd : 0 ≤ q / cols < rows).
  { split; [apply Z.div_pos; lia|]. apply Z.div_lt_upper_bound; lia. }
  rewrite Hd1 by nia.
  unfold rearranged_px.
  destruct (divmod_tile tw (q mod cols) (x mod tw) Hxm) as [-> ->].
  destruct (divmod_tile th (q / cols) (y mod th) Hym) as [-> ->].
  replace (q / cols * cols + q mod cols) with q
    by (pose proof (Z.div_mod q cols); lia).
  done.
Qed.

End composition.

(** X11. Two calls compose: on a source valid for both orderings, with
    positive tile dimensions, rearranging with [P] and then the saved result
    with [Q] gives the same picture as one call with the ordering whose slot
    [k] is [P[Q[k]]], which is valid too. *)
Theorem rearrange_tiles_compose (w : world) (path mid out out' : string)
    (tw th : Z) (P Q : list Z) (src : img) :
  fs w !! path = Some src →
  valid_input (size src) (tw, th) P = Ok true →
  valid_input (size src) (tw, th) Q = Ok true →
  0 < tw → 0 < th →
  ∃ w1 w2 w3 d2 d3,
    rearrange_tiles path (tw, th) P mid w = (Ok (), w1) ∧
    rearrange_tiles mid (tw, th) Q out w1 = (Ok (), w2) ∧
    fs w2 !! out = Some d2 ∧
    rearrange_tiles path (tw, th) (compose_ordering P Q) out' w = (Ok (), w3) ∧
    fs w3 !! out' = Some d3 ∧
    pixel_identical d2 d3.
Proof.
  intros Hfs HvP HvQ Htw Hth.
  destruct (rearrange_tiles_valid path (tw, th) P mid w src Hfs HvP)
    as (w1 & Hrun1 & Hfs1).
  set (d1 := pasted src (new_img (mode src) (size src)) (tw, th) P) in *.
  destruct (output_frame src (tw, th) P) as (Hm1 & Hw1 & Hh1).
  fold d1 in Hm1, Hw1, Hh1.
  assert (Hsz : size d1 = size src) by (by apply size_eq).
  assert (Hmid : fs w1 !! mid = Some d1) by (rewrite Hfs1; apply lookup_insert_eq).
  assert (HvQ1 : valid_input (size d1) (tw, th) Q = Ok true) by (by rewrite Hsz).
  destruct (rearrange_tiles_valid mid (tw, th) Q out w1 d1 Hmid HvQ1)
    as (w2 & Hrun2 & Hfs2).
  destruct (output_frame d1 (tw, th) Q) as (Hm2 & Hw2 & Hh2).
  pose proof (compose_ordering_valid src tw th Htw Hth P Q HvP HvQ) as HvC.
  destruct (rearrange_tiles_valid path (tw, th) (compose_ordering P Q) out' w
              src Hfs HvC) as (w3 & Hrun3 & Hfs3).
  destruct (output_frame src (tw, th) (compose_ordering P Q)) as (Hm3 & Hw3 & Hh3).
  eexists w1, w2, w3, _, _.
  split; [done|]. split; [done|].
  split; [rewrite Hfs2; apply lookup_insert_eq|].
  split; [done|]. split; [rewrite Hfs3; apply lookup_insert_eq|].
  split; [congruence|]. split; [apply size_eq; congruence|].
  intros x y Hx Hy. rewrite Hw2, Hw1 in Hx. rewrite Hh2, Hh1 in Hy.
  rewrite (pasted_px d1) by (done || congruence).
  rewrite (pasted_px src) by done.
  apply (rearranged_px_compose src tw th Htw Hth P Q HvQ); [done| |done|done].
  intros x' y' Hx' Hy'. unfold d1. by apply pasted_px.
Qed.

Lemma rearrange_tiles_compose_witness :
  ∃ w1 w2 w3 d2 d3,
    rearrange_tiles "in.png" (2, 2) [1; 2; 3; 0] "mid.png" world44 = (Ok (), w1) ∧
    rearrange_tiles "mid.png" (2, 2) [1; 0; 3; 2] "out.png" w1 = (Ok (), w2) ∧
    fs w2 !! "out.png" = Some d2 ∧
    rearrange_tiles "in.png" (2, 2) (compose_ordering [1; 2; 3; 0] [1; 0; 3; 2])
      "one.png" world44 = (Ok (), w3) ∧
    fs w3 !! "one.png" = Some d3 ∧
    pixel_identical d2 d3.
Proof.
  apply (rearrange_tiles_compose world44 "in.png" "mid.png" "out.png" "one.png"
           2 2 [1; 2; 3; 0] [1; 0; 3; 2] img44);
    [reflexivity|reflexivity|reflexivity|lia|lia].
Defined.

(** X12. On a valid input with positive tile dimensions the rectangles that
    [get_tile] crops over the grid tile the picture. [get_tile] crops the
    rectangle [tile_region] of its column and row; the loop of lines 83-86
    leaves at [tiles[r * tile_cols + c]] the crop of the rectangle of row
    [r], column [c], whose pixels are source pixels; each of these
    rectangles lies inside the image; and every pixel of the image lies in
    the rectangle of exactly one grid position, row [y // tile_height],
    column [x // tile_width]. *)
Theorem tile_regions_partition (w : world) (image : ref) (src : img)
    (tw th : Z) (ordering : list Z) :
  heap w !! image = Some src →
  valid_input (size src) (tw, th) ordering = Ok true →
  0 < tw → 0 < th →
  let tile_rows := Z.of_N (height src) / th in
  let tile_cols := Z.of_N (width src) / tw in
  (∀ i j, get_tile image (tw, th) i j w
          = Image_crop image (tile_region (tw, th) i j) w) ∧
  (∃ tiles w1,
     tiles_loop image (tw, th) tile_rows tile_cols w = (Ok tiles, w1) ∧
     len tiles = tile_rows * tile_cols ∧
     ∀ r c, (r, c) ∈ grid tile_rows tile_cols →
       ∃ t tl,
         tiles !! Z.to_nat (r * tile_cols + c) = Some t ∧
         heap w1 !! t = Some tl ∧
         tl = crop_img src (tile_region (tw, th) c r) ∧
         size tl = (tw, th) ∧
         ∀ x y, in_region (tile_region (tw, th) c r) x y →
                px tl (x - tw * c) (y - th * r) = px src x y) ∧
  (∀ r c x y, (r, c) ∈ grid tile_rows tile_cols →
     in_region (tile_region (tw, th) c r) x y →
     0 ≤ x < Z.of_N (width src) ∧ 0 ≤ y < Z.of_N (height src)) ∧
  (∀ x y, 0 ≤ x < Z.of_N (width src) → 0 ≤ y < Z.of_N (height src) →
     (y / th, x / tw) ∈ grid tile_rows tile_cols ∧
     ∀ r c, in_region (tile_region (tw, th) c r) x y ↔ r = y / th ∧ c = x / tw).
Proof.
  intros Himg Hv Htw Hth. cbn zeta.
  destruct (valid_geometry src tw th ordering Hv Htw Hth)
    as (Hr & Hc & HW & HH & _).
  assert (Hin : ∀ r c x y,
            (r, c) ∈ grid (Z.of_N (height src) / th) (Z.of_N (width src) / tw) →
            in_region (tile_region (tw, th) c r) x y →
            0 ≤ x < Z.of_N (width src) ∧ 0 ≤ y < Z.of_N (height src)).
  { intros r c x y [Hr' Hc']%elem_of_grid.
    unfold in_region, tile_region. cbn [fst snd]. rewrite HW, HH. nia. }
  split; [|split; [|split]].
  - intros i j. unfold get_tile, tile_region. cbn [fst snd]. do 3 f_equal; lia.
  - destruct (tiles_loop_run w image src tw th Himg)
      as (tiles & w1 & Hrun & _ & _ & Htiles).
    exists tiles, w1. split; [done|]. split.
    { unfold len. rewrite (Forall2_length _ _ _ Htiles). by apply length_grid. }
    intros r c Hg. pose proof Hg as [Hr' Hc']%elem_of_grid.
    pose proof (slot_bounds _ _ r c Hr' Hc') as Hk.
    pose proof (grid_lookup_lt _ _ _ Hr Hc Hk) as Hl.
    destruct (divmod_slot _ r c Hc') as [Hd Hm]. rewrite Hd, Hm in Hl.
    destruct (Forall2_lookup_r _ _ _ _ _ Htiles Hl) as (t & Ht & Hheap & _).
    cbn [fst snd] in Hheap. rewrite tile_img_region in Hheap.
    exists t, (crop_img src (tile_region (tw, th) c r)).
    split; [done|]. split; [done|]. split; [done|]. split.
    { unfold size, tile_region, crop_img. cbn [fst snd width height].
      f_equal; lia. }
    intros x y Hxy. destruct (Hin r c x y Hg Hxy) as [Hx Hy].
    unfold tile_region, crop_img. cbn [fst snd px].
    replace (tw * c + (x - tw * c)) with x by lia.
    replace (th * r + (y - th * r)) with y by lia.
    unfold getpixel, in_bounds.
    rewrite !andb_true_intro; [done|].
    rewrite !andb_true_iff, !Z.leb_le, !Z.ltb_lt. lia.
  - exact Hin.
  - intros x y Hx Hy.
    destruct (pixel_slot src tw th ordering Hv Htw Hth x y Hx Hy) as (Hi & Hj & _).
    split; [by apply elem_of_grid|].
    intros r c. unfold in_region, tile_region. cbn [fst snd].
    pose proof (Z.div_mod x tw ltac:(lia)) as Hdx.
    pose proof (Z.mod_pos_bound x tw Htw) as Hxm.
    pose proof (Z.div_mod y th ltac:(lia)) as Hdy.
    pose proof (Z.mod_pos_bound y th Hth) as Hym.
    split.
    + intros [Hxr Hyr]. split.
      * apply (Z.div_unique_pos y th r (y - th * r)); lia.
      * apply (Z.div_unique_pos x tw c (x - tw * c)); lia.
    + intros [-> ->]. lia.
Qed.

Lemma tile_regions_partition_witness :
  let w := {| fs := ∅; heap := {[ 0%nat := img44 ]} |} in
  (∃ tiles w1, tiles_loop 0%nat (2, 2) 2 2 w = (Ok tiles, w1) ∧ len tiles = 4) ∧
  (in_region (tile_region (2, 2) 1 0) 3 1 ↔ 0 = 1 / 2 ∧ 1 = 3 / 2).
Proof.
  cbn zeta.
  destruct (tile_regions_partition {| fs := ∅; heap := {[ 0%nat := img44 ]} |}
              0%nat img44 2 2 [0; 1; 2; 3])
    as (_ & (tiles & w1 & Hrun & Hlen & _) & _ & Hpart);
    [reflexivity|reflexivity|lia|lia|].
  split.
  - exists tiles, w1. split; [exact Hrun|exact Hlen].
  - apply (Hpart 3 1); vm_compute; split; congruence.
Defined.
